(** * Enemy behaviour and combat state machine

    A shallow embedding of the three enemy modules of the game:
    - [enemy_damage.js]: health pool, per-line damage, defeat;
    - [enemy_movement.js]: horizontal patrol, pause, crouch pose;
    - [bullet_origin_fix.js]: muzzle origin and the high/low shot gate.

    Every module of the source is an IIFE closing over a configuration
    object and a mutable state object.  The embedding passes the state
    explicitly: a source function that mutates [enemyState] becomes a
    function from the old state to the new one, paired with the value
    it returns.  Calls to [Math.random()] and [Date.now()] are inputs. *)

From stdpp Require Import base list.
From Stdlib Require Import ZArith QArith Qabs List Bool Lia Lqa.
Import ListNotations.

(** ** How a call ends

    A JavaScript call either returns a value or throws. *)

Inductive Completion (A : Type) : Type :=
| Returned (a : A)
| Thrown.
Arguments Returned {A} a.
Arguments Thrown {A}.

(** ** JavaScript strings

    A string is its sequence of UTF-16 code units. *)

Module JSString.
Local Open Scope N_scope.

Definition t : Type := list N.

(** [String.prototype.trim] strips the code points of WhiteSpace and
    LineTerminator (ECMAScript 22.1.3.32). *)
Definition isWhiteSpace (c : N) : bool :=
  (c =? 9) || (c =? 10) || (c =? 11) || (c =? 12) || (c =? 13) ||
  (c =? 32) || (c =? 160) || (c =? 5760) ||
  ((8192 <=? c) && (c <=? 8202)) ||
  (c =? 8232) || (c =? 8233) || (c =? 8239) || (c =? 8287) ||
  (c =? 12288) || (c =? 65279).

Fixpoint trimStart (s : t) : t :=
  match s with
  | [] => []
  | c :: rest => if isWhiteSpace c then trimStart rest else s
  end.

Definition trimEnd (s : t) : t := rev (trimStart (rev s)).

Definition trim (s : t) : t := trimEnd (trimStart s).

Definition isEmpty (s : t) : bool :=
  match s with [] => true | _ :: _ => false end.

End JSString.

(** ** enemy_damage.js *)

Module EnemyDamage.
Local Open Scope Z_scope.

(** [enemyHealthConfig]: a [const] object private to the module, so its
    fields are constants of the program.  Health values are JavaScript
    numbers that only ever hold integers far below 2^53; they are
    exact, and modelled in [Z]. *)
Definition maxHealth : Z := 1000.
Definition damagePerLineBase : Z := 29.

(** [enemyState]. *)
Record EnemyState : Type := mkEnemyState {
  currentHealth : Z;
  totalDamageDealt : Z;
  linesCompleted : Z;
  lineCount : Z;
  isDefeated : bool
}.

(** The object literal the module starts with. *)
Definition enemyState0 : EnemyState :=
  {| currentHealth := 1000; totalDamageDealt := 0; linesCompleted := 0;
     lineCount := 35; isDefeated := false |}.

Definition set_currentHealth (v : Z) (s : EnemyState) : EnemyState :=
  {| currentHealth := v; totalDamageDealt := totalDamageDealt s;
     linesCompleted := linesCompleted s; lineCount := lineCount s;
     isDefeated := isDefeated s |}.

Definition set_totalDamageDealt (v : Z) (s : EnemyState) : EnemyState :=
  {| currentHealth := currentHealth s; totalDamageDealt := v;
     linesCompleted := linesCompleted s; lineCount := lineCount s;
     isDefeated := isDefeated s |}.

Definition set_linesCompleted (v : Z) (s : EnemyState) : EnemyState :=
  {| currentHealth := currentHealth s; totalDamageDealt := totalDamageDealt s;
     linesCompleted := v; lineCount := lineCount s;
     isDefeated := isDefeated s |}.

Definition set_lineCount (v : Z) (s : EnemyState) : EnemyState :=
  {| currentHealth := currentHealth s; totalDamageDealt := totalDamageDealt s;
     linesCompleted := linesCompleted s; lineCount := v;
     isDefeated := isDefeated s |}.

Definition set_isDefeated (v : bool) (s : EnemyState) : EnemyState :=
  {| currentHealth := currentHealth s; totalDamageDealt := totalDamageDealt s;
     linesCompleted := linesCompleted s; lineCount := lineCount s;
     isDefeated := v |}.

(** The object [applyDamage] returns: [{ damage: 0 }] on the two early
    returns, all four properties otherwise. *)
Record DamageInfo : Type := mkDamageInfo {
  damage : Z;
  remainingHealth : option Z;
  isFinalLine : option bool;
  infoIsDefeated : option bool
}.

Definition noDamage : DamageInfo :=
  {| damage := 0; remainingHealth := None; isFinalLine := None;
     infoIsDefeated := None |}.

(** [applyDamage(lineText, isSuccessful, currentLyricText)].

    [lineText] and [currentLyricText] are never read.  After the state
    is written the function calls the presentation helpers, which only
    touch the DOM; the one that can stop the call is [showDamageNumber],
    which dereferences [healthBarContainer] and throws when that
    reference is still [null].  [container] tells whether it is set. *)
Definition applyDamage (container isSuccessful : bool) (s : EnemyState)
  : Completion DamageInfo * EnemyState :=
  if isDefeated s then (Returned noDamage, s)
  else if negb isSuccessful then (Returned noDamage, s)
  else
    let s := set_linesCompleted (linesCompleted s + 1) s in
    let damageAmount := damagePerLineBase in
    let finalLine := 35 <=? linesCompleted s in
    let damageAmount :=
      if finalLine then Z.max damageAmount (currentHealth s)
      else damageAmount in
    let s := set_currentHealth (Z.max 0 (currentHealth s - damageAmount)) s in
    let s := set_totalDamageDealt (totalDamageDealt s + damageAmount) s in
    let s :=
      if currentHealth s <=? 0
      then set_currentHealth 0 (set_isDefeated true s)
      else s in
    if container
    then (Returned {| damage := damageAmount;
                      remainingHealth := Some (currentHealth s);
                      isFinalLine := Some finalLine;
                      infoIsDefeated := Some (isDefeated s) |}, s)
    else (Thrown, s).

(** One entry of [lrcData.lyrics]; [text] is [None] when the property
    is missing. *)
Record Lyric : Type := mkLyric { text : option JSString.t }.

(** The argument of [setCurrentTrack]: the outer [option] is [lrcData]
    itself ([None] for [null] or [undefined]), the inner one its
    [lyrics] array. *)
Record LrcData : Type := mkLrcData { lyrics : option (list Lyric) }.

(** [lyric.text && lyric.text.trim() !== ""]: the empty string is
    falsy, so both conjuncts are tests on the string. *)
Definition hasTextContent (l : Lyric) : bool :=
  match text l with
  | None => false
  | Some t => negb (JSString.isEmpty t) && negb (JSString.isEmpty (JSString.trim t))
  end.

(** The [for ... of] loop of [setCurrentTrack]. *)
Fixpoint countLines (ls : list Lyric) (lineCount : Z) : Z :=
  match ls with
  | [] => lineCount
  | l :: rest =>
      countLines rest (if hasTextContent l then lineCount + 1 else lineCount)
  end.

(** [setCurrentTrack(lrcData)]. *)
Definition setCurrentTrack (lrcData : option LrcData) (s : EnemyState)
  : EnemyState :=
  match lrcData with
  | None => s
  | Some d =>
      match lyrics d with
      | None => s
      | Some [] => s
      | Some ls =>
          let n := countLines ls 0 in
          set_linesCompleted 0 (set_lineCount n s)
      end
  end.

(** [resetEnemyDamageSystem()]; [updateHealthBar] only writes the DOM
    and returns early when its elements are missing. *)
Definition resetEnemyDamageSystem (s : EnemyState) : EnemyState :=
  let s := set_currentHealth maxHealth s in
  let s := set_totalDamageDealt 0 s in
  let s := set_linesCompleted 0 s in
  set_isDefeated false s.

(** [initEnemyDamage()] writes the same four fields. *)
Definition initEnemyDamage (s : EnemyState) : EnemyState :=
  let s := set_currentHealth maxHealth s in
  let s := set_totalDamageDealt 0 s in
  let s := set_linesCompleted 0 s in
  set_isDefeated false s.

(** The calls a client can make on the health state. *)
Inductive Call : Type :=
| CallApplyDamage (container isSuccessful : bool)
| CallSetCurrentTrack (lrcData : option LrcData)
| CallReset
| CallInit.

(** The two calls that refill the pool. *)
Definition isReset (c : Call) : bool :=
  match c with CallReset | CallInit => true | _ => false end.

Definition step (s : EnemyState) (c : Call) : EnemyState :=
  match c with
  | CallApplyDamage container ok => snd (applyDamage container ok s)
  | CallSetCurrentTrack d => setCurrentTrack d s
  | CallReset => resetEnemyDamageSystem s
  | CallInit => initEnemyDamage s
  end.

Definition run (s : EnemyState) (cs : list Call) : EnemyState :=
  fold_left step cs s.

(** States reachable from the initial object by any sequence of calls. *)
Inductive reachable : EnemyState -> Prop :=
| reachable_init : reachable enemyState0
| reachable_step s c : reachable s -> reachable (step s c).

(** A track of [n] lines that all carry the one letter "a". *)
Definition trackOfLines (n : nat) : option LrcData :=
  Some {| lyrics := Some (repeat {| text := Some [97%N] |} n) |}.

(** The health pool stays between zero and [maxHealth], and it is empty
    exactly when the enemy is marked defeated. *)
Definition healthy (s : EnemyState) : Prop :=
  0 <= currentHealth s <= maxHealth /\
  (currentHealth s = 0 <-> isDefeated s = true).

(** Two readings of "a line with text".  The first asks only that the
    string is not the empty string; the second that something is left
    of it once [trim] has run. *)
Definition hasNonEmptyText (l : Lyric) : bool :=
  match text l with
  | None => false
  | Some t => negb (JSString.isEmpty t)
  end.

Definition hasVisibleText (l : Lyric) : bool :=
  match text l with
  | None => false
  | Some t => negb (JSString.isEmpty (JSString.trim t))
  end.

Definition countWhere (p : Lyric -> bool) (ls : list Lyric) : Z :=
  Z.of_nat (length (filter p ls)).

End EnemyDamage.

(** ** JavaScript numbers that are not integers

    Positions, scales and probabilities are doubles in the source.  They
    are modelled as rationals: the properties below only compare them,
    copy them and add a constant to them, and the source never produces
    [NaN] or an infinity from the values it starts with. *)

Definition Qlt_bool (x y : Q) : bool := negb (Qle_bool y x).

(** Truthiness of a property holding a number or [undefined]: [0] is
    falsy, like [undefined]. *)
Definition truthy (v : option Q) : bool :=
  match v with
  | None => false
  | Some q => negb (Qeq_bool q 0)
  end.

(** A [THREE.Vector3]. *)
Record Vector3 : Type := mkVector3 { vx : Q; vy : Q; vz : Q }.

(** ** enemy_movement.js *)

Module EnemyMovement.
Local Open Scope Q_scope.

(** [enemyConfig].  The object is exported as [EnemyMovement.config]
    and [setEnemyPosition] writes to it, so it is passed to every
    function rather than fixed. *)
Record EnemyConfig : Type := mkEnemyConfig {
  moveSpeed : Q;
  minX : Q;
  maxX : Q;
  initialPosition : Q;
  initialPositionY : Q;
  crouchProbability : Q;
  crouchDuration : Z;
  crouchAmount : Q;
  crouchScale : Q;
  crouchPositionY : Q;
  changeDirectionChance : Q;
  pauseChance : Q;
  pauseDuration : Z
}.

(** The object literal of the source. *)
Definition enemyConfig : EnemyConfig :=
  {| moveSpeed := 15 # 100;
     minX := 10;
     maxX := 40;
     initialPosition := 30;
     initialPositionY := 5 # 2;
     crouchProbability := 5 # 1000;
     crouchDuration := 60;
     crouchAmount := 10;
     crouchScale := 14 # 10;
     crouchPositionY := - (3 # 2);
     changeDirectionChance := 2 # 1000;
     pauseChance := 2 # 1000;
     pauseDuration := 60 |}.

(** A child of the enemy object: what the module reads and writes of a
    [THREE.Mesh].  [hasGeometry] is the truthiness of [child.geometry],
    [isGroup] is [child instanceof THREE.Group], [userOriginalY] is
    [child.userData.originalY] ([None] while the property is absent). *)
Record Mesh : Type := mkMesh {
  hasGeometry : bool;
  isGroup : bool;
  meshX : Q;
  meshY : Q;
  meshZ : Q;
  userOriginalY : option Q
}.

Definition set_meshY (v : Q) (m : Mesh) : Mesh :=
  {| hasGeometry := hasGeometry m; isGroup := isGroup m;
     meshX := meshX m; meshY := v; meshZ := meshZ m;
     userOriginalY := userOriginalY m |}.

Definition set_userOriginalY (v : option Q) (m : Mesh) : Mesh :=
  {| hasGeometry := hasGeometry m; isGroup := isGroup m;
     meshX := meshX m; meshY := meshY m; meshZ := meshZ m;
     userOriginalY := v |}.

(** The enemy object handed to [init] and [update]: [position],
    [scale.y] and [children].  The children are the store of meshes:
    a mesh is one object, written in place. *)
Record Enemy : Type := mkEnemy {
  positionX : Q;
  positionY : Q;
  positionZ : Q;
  scaleY : Q;
  children : list Mesh
}.

Definition set_positionX (v : Q) (e : Enemy) : Enemy :=
  {| positionX := v; positionY := positionY e; positionZ := positionZ e;
     scaleY := scaleY e; children := children e |}.

Definition set_positionY (v : Q) (e : Enemy) : Enemy :=
  {| positionX := positionX e; positionY := v; positionZ := positionZ e;
     scaleY := scaleY e; children := children e |}.

Definition set_scaleY (v : Q) (e : Enemy) : Enemy :=
  {| positionX := positionX e; positionY := positionY e;
     positionZ := positionZ e; scaleY := v; children := children e |}.

Definition set_children (v : list Mesh) (e : Enemy) : Enemy :=
  {| positionX := positionX e; positionY := positionY e;
     positionZ := positionZ e; scaleY := scaleY e; children := v |}.

(** [enemyState.bodyParts].  A slot holds a reference to one of the
    enemy's children, here the index of that child; [None] is [null].
    Two slots may hold the same reference.  The enemy the results are
    read from is the one [init] was given: the game has one. *)
Record BodyParts : Type := mkBodyParts {
  head : option nat;
  body : option nat;
  weapon : option nat;
  legs : list nat
}.

(** The mesh a slot refers to. *)
Definition deref (ch : list Mesh) (ref : option nat) : option Mesh :=
  match ref with
  | Some i => ch !! i
  | None => None
  end.

(** A write through a slot; a [null] slot is skipped by the source's
    [if (part && ...)]. *)
Definition alterPart (f : Mesh -> Mesh) (ref : option nat)
  (ch : list Mesh) : list Mesh :=
  match ref with
  | Some i => alter f i ch
  | None => ch
  end.

Definition updatePart (f : Mesh -> Mesh) (ref : option nat) (e : Enemy)
  : Enemy :=
  set_children (alterPart f ref (children e)) e.

(** [enemyState]. *)
Record EnemyState : Type := mkEnemyState {
  direction : Z;
  isCrouching : bool;
  crouchTimer : Z;
  isPaused : bool;
  pauseTimer : Z;
  originalScale : Q;
  originalY : Q;
  bodyParts : BodyParts
}.

(** The object literal the module starts with. *)
Definition enemyState0 : EnemyState :=
  {| direction := (-1)%Z; isCrouching := false; crouchTimer := 0%Z;
     isPaused := false; pauseTimer := 0%Z;
     originalScale := 1; originalY := 0;
     bodyParts := {| head := None; body := None; weapon := None;
                     legs := [] |} |}.

Definition set_direction (v : Z) (s : EnemyState) : EnemyState :=
  {| direction := v; isCrouching := isCrouching s;
     crouchTimer := crouchTimer s; isPaused := isPaused s;
     pauseTimer := pauseTimer s; originalScale := originalScale s;
     originalY := originalY s; bodyParts := bodyParts s |}.

Definition set_isCrouching (v : bool) (s : EnemyState) : EnemyState :=
  {| direction := direction s; isCrouching := v;
     crouchTimer := crouchTimer s; isPaused := isPaused s;
     pauseTimer := pauseTimer s; originalScale := originalScale s;
     originalY := originalY s; bodyParts := bodyParts s |}.

Definition set_crouchTimer (v : Z) (s : EnemyState) : EnemyState :=
  {| direction := direction s; isCrouching := isCrouching s;
     crouchTimer := v; isPaused := isPaused s;
     pauseTimer := pauseTimer s; originalScale := originalScale s;
     originalY := originalY s; bodyParts := bodyParts s |}.

Definition set_isPaused (v : bool) (s : EnemyState) : EnemyState :=
  {| direction := direction s; isCrouching := isCrouching s;
     crouchTimer := crouchTimer s; isPaused := v;
     pauseTimer := pauseTimer s; originalScale := originalScale s;
     originalY := originalY s; bodyParts := bodyParts s |}.

Definition set_pauseTimer (v : Z) (s : EnemyState) : EnemyState :=
  {| direction := direction s; isCrouching := isCrouching s;
     crouchTimer := crouchTimer s; isPaused := isPaused s;
     pauseTimer := v; originalScale := originalScale s;
     originalY := originalY s; bodyParts := bodyParts s |}.

Definition set_originalScale (v : Q) (s : EnemyState) : EnemyState :=
  {| direction := direction s; isCrouching := isCrouching s;
     crouchTimer := crouchTimer s; isPaused := isPaused s;
     pauseTimer := pauseTimer s; originalScale := v;
     originalY := originalY s; bodyParts := bodyParts s |}.

Definition set_originalY (v : Q) (s : EnemyState) : EnemyState :=
  {| direction := direction s; isCrouching := isCrouching s;
     crouchTimer := crouchTimer s; isPaused := isPaused s;
     pauseTimer := pauseTimer s; originalScale := originalScale s;
     originalY := v; bodyParts := bodyParts s |}.

Definition set_bodyParts (v : BodyParts) (s : EnemyState) : EnemyState :=
  {| direction := direction s; isCrouching := isCrouching s;
     crouchTimer := crouchTimer s; isPaused := isPaused s;
     pauseTimer := pauseTimer s; originalScale := originalScale s;
     originalY := originalY s; bodyParts := v |}.

(** *** Part classification of [initEnemyMovement] *)

(** The guard of the [forEach] callback: groups and children without a
    geometry are skipped. *)
Definition isPlainMesh (c : Mesh) : bool :=
  hasGeometry c && negb (isGroup c).

Definition farFromAxis (c : Mesh) : bool :=
  Qlt_bool 3 (Qabs (meshX c)) || Qlt_bool 3 (Qabs (meshZ c)).

Definition isHeadCandidate (c : Mesh) : bool :=
  isPlainMesh c && Qlt_bool 5 (meshY c).

Definition isWeaponCandidate (c : Mesh) : bool :=
  isPlainMesh c && negb (Qlt_bool 5 (meshY c)) && Qlt_bool 0 (meshY c)
  && farFromAxis c.

Definition isBodyCandidate (c : Mesh) : bool :=
  isPlainMesh c && negb (Qlt_bool 5 (meshY c)) && Qlt_bool 0 (meshY c)
  && negb (farFromAxis c).

Definition isLegCandidate (c : Mesh) : bool :=
  isPlainMesh c && negb (Qlt_bool 5 (meshY c)) && negb (Qlt_bool 0 (meshY c))
  && Qlt_bool (meshY c) 0.

(** The children, each with the reference that names it. *)
Definition indexedChildren (ch : list Mesh) : list (nat * Mesh) :=
  imap (fun i c => (i, c)) ch.

(** The candidate array a [forEach] pass fills for one class. *)
Definition candidates (p : Mesh -> bool) (ch : list Mesh)
  : list (nat * Mesh) :=
  List.filter (fun c => p (snd c)) (indexedChildren ch).

(** [Array.prototype.sort] with the comparator [(a, b) => key b - key a]:
    a stable sort by decreasing key. *)
Fixpoint insertDescending (key : Mesh -> Q) (x : nat * Mesh)
  (sorted : list (nat * Mesh)) : list (nat * Mesh) :=
  match sorted with
  | [] => [x]
  | y :: rest =>
      if Qlt_bool (key (snd y)) (key (snd x)) then x :: sorted
      else y :: insertDescending key x rest
  end.

Definition sortDescending (key : Mesh -> Q) (l : list (nat * Mesh))
  : list (nat * Mesh) :=
  fold_left (fun sorted x => insertDescending key x sorted) l [].

(** [if (candidates.length > 0) slot = candidates[0]]: the slot keeps
    its old reference when there is no candidate. *)
Definition firstOr (old : option nat) (sorted : list (nat * Mesh))
  : option nat :=
  match sorted with
  | [] => old
  | c :: _ => Some (fst c)
  end.

(** [initEnemyMovement(enemy)]. *)
Definition initEnemyMovement (cfg : EnemyConfig) (enemy : option Enemy)
  (s : EnemyState) : option Enemy * EnemyState :=
  match enemy with
  | None => (None, s)
  | Some e =>
      let e := set_positionY (initialPositionY cfg) e in
      let s := set_originalScale (scaleY e) s in
      let s := set_originalY (positionY e) s in
      let headCandidates :=
        sortDescending meshY (candidates isHeadCandidate (children e)) in
      let bodyCandidates :=
        sortDescending meshY (candidates isBodyCandidate (children e)) in
      let weaponCandidates :=
        sortDescending (fun c => Qabs (meshX c))
                       (candidates isWeaponCandidate (children e)) in
      let legCandidates := candidates isLegCandidate (children e) in
      let parts := bodyParts s in
      let parts :=
        {| head := firstOr (head parts) headCandidates;
           body := firstOr (body parts) bodyCandidates;
           weapon := firstOr (weapon parts) weaponCandidates;
           legs := legs parts ++ map fst legCandidates |} in
      let s := set_bodyParts parts s in
      let e := set_positionX (initialPosition cfg) e in
      (Some e, s)
  end.

(** [setEnemyPosition(xPosition)] rewrites the configuration. *)
Definition setEnemyPosition (xPosition : Q) (cfg : EnemyConfig)
  : EnemyConfig :=
  {| moveSpeed := moveSpeed cfg; minX := minX cfg; maxX := maxX cfg;
     initialPosition := xPosition;
     initialPositionY := initialPositionY cfg;
     crouchProbability := crouchProbability cfg;
     crouchDuration := crouchDuration cfg;
     crouchAmount := crouchAmount cfg;
     crouchScale := crouchScale cfg;
     crouchPositionY := crouchPositionY cfg;
     changeDirectionChance := changeDirectionChance cfg;
     pauseChance := pauseChance cfg;
     pauseDuration := pauseDuration cfg |}.

(** *** Crouch pose *)

(** [if (!part.userData.originalY)
       part.userData.originalY = part.position.y]. *)
Definition recordOriginalY (m : Mesh) : Mesh :=
  if negb (truthy (userOriginalY m))
  then set_userOriginalY (Some (meshY m)) m
  else m.

(** [if (part.userData.originalY)
       part.position.y = part.userData.originalY - drop]. *)
Definition lowerMesh (drop : Q) (m : Mesh) : Mesh :=
  match userOriginalY m with
  | Some o => if truthy (Some o) then set_meshY (o - drop) m else m
  | None => m
  end.

(** [if (part.userData.originalY !== undefined)
       part.position.y = part.userData.originalY]. *)
Definition restoreMesh (m : Mesh) : Mesh :=
  match userOriginalY m with
  | Some o => set_meshY o m
  | None => m
  end.

(** [maintainCrouchState(enemy)]: it reads the state and writes the
    enemy and the tracked meshes. *)
Definition maintainCrouchState (cfg : EnemyConfig) (e : Enemy)
  (s : EnemyState) : Enemy :=
  let e := set_scaleY (originalScale s / crouchScale cfg) e in
  let crouchYPosition := initialPositionY cfg + crouchPositionY cfg in
  let e := set_positionY crouchYPosition e in
  let parts := bodyParts s in
  let e := updatePart (lowerMesh (crouchAmount cfg)) (head parts) e in
  let e :=
    updatePart (lowerMesh (crouchAmount cfg * (8 # 10))) (body parts) e in
  updatePart (lowerMesh (crouchAmount cfg * (8 # 10))) (weapon parts) e.

(** [startCrouching(enemy)]. *)
Definition startCrouching (cfg : EnemyConfig) (e : Enemy) (s : EnemyState)
  : Enemy * EnemyState :=
  let s := set_isCrouching true s in
  let s := set_crouchTimer (crouchDuration cfg) s in
  let parts := bodyParts s in
  let e := updatePart recordOriginalY (head parts) e in
  let e := updatePart recordOriginalY (body parts) e in
  let e := updatePart recordOriginalY (weapon parts) e in
  (maintainCrouchState cfg e s, s).

(** [stopCrouching(enemy)]. *)
Definition stopCrouching (cfg : EnemyConfig) (e : Enemy) (s : EnemyState)
  : Enemy * EnemyState :=
  let s := set_isCrouching false s in
  let e := set_scaleY (originalScale s) e in
  let e := set_positionY (initialPositionY cfg) e in
  let parts := bodyParts s in
  let e := updatePart restoreMesh (head parts) e in
  let e := updatePart restoreMesh (body parts) e in
  let e := updatePart restoreMesh (weapon parts) e in
  (e, s).

(** [handleCrouching(enemy)].  [roll] is the value [Math.random()]
    yields if the first test gets as far as calling it. *)
Definition handleCrouching (cfg : EnemyConfig) (roll : Q) (e : Enemy)
  (s : EnemyState) : Enemy * EnemyState :=
  let '(e, s) :=
    if negb (isCrouching s) && Qlt_bool roll (crouchProbability cfg)
    then startCrouching cfg e s
    else (e, s) in
  if isCrouching s then
    let e := maintainCrouchState cfg e s in
    let s := set_crouchTimer (crouchTimer s - 1)%Z s in
    if (crouchTimer s <=? 0)%Z then stopCrouching cfg e s else (e, s)
  else (e, s).

(** *** The per-frame update *)

(** The values [Math.random()] would return at the three places one
    tick can call it: the crouch test, the pause test and the
    direction test.  A value is ignored when its call is not reached. *)
Record Rolls : Type := mkRolls {
  crouchRoll : Q;
  pauseRoll : Q;
  directionRoll : Q
}.

(** The first block of [updateEnemyMovement]: pin the standing height
    while not crouching. *)
Definition holdStandingHeight (cfg : EnemyConfig) (e : Enemy)
  (s : EnemyState) : Enemy * EnemyState :=
  if negb (isCrouching s)
  then (set_positionY (initialPositionY cfg) e,
        set_originalY (initialPositionY cfg) s)
  else (e, s).

(** The last block of [updateEnemyMovement]: one step along the
    current direction, with the bounce at either boundary. *)
Definition moveHorizontally (cfg : EnemyConfig) (e : Enemy) (s : EnemyState)
  : Enemy * EnemyState :=
  if (direction s =? -1)%Z then
    let e := set_positionX (positionX e - moveSpeed cfg) e in
    if Qle_bool (positionX e) (minX cfg)
    then (set_positionX (minX cfg) e, set_direction 1%Z s)
    else (e, s)
  else
    let e := set_positionX (positionX e + moveSpeed cfg) e in
    if Qle_bool (maxX cfg) (positionX e)
    then (set_positionX (maxX cfg) e, set_direction (-1)%Z s)
    else (e, s).

(** The random direction change that precedes the move. *)
Definition maybeChangeDirection (cfg : EnemyConfig) (roll : Q)
  (s : EnemyState) : EnemyState :=
  if Qlt_bool roll (changeDirectionChance cfg)
  then set_direction (direction s * -1)%Z s
  else s.

(** [updateEnemyMovement(enemy, deltaTime)]; [deltaTime] is never
    read. *)
Definition updateEnemyMovement (cfg : EnemyConfig) (r : Rolls)
  (enemy : option Enemy) (s : EnemyState) : option Enemy * EnemyState :=
  match enemy with
  | None => (None, s)
  | Some e =>
      let '(e, s) := holdStandingHeight cfg e s in
      let '(e, s) := handleCrouching cfg (crouchRoll r) e s in
      if isPaused s then
        let s := set_pauseTimer (pauseTimer s - 1)%Z s in
        let s := if (pauseTimer s <=? 0)%Z then set_isPaused false s else s in
        (Some e, s)
      else if Qlt_bool (pauseRoll r) (pauseChance cfg) then
        let s := set_isPaused true s in
        let s := set_pauseTimer (pauseDuration cfg) s in
        (Some e, s)
      else
        let s := maybeChangeDirection cfg (directionRoll r) s in
        let '(e, s) := moveHorizontally cfg e s in
        (Some e, s)
  end.

(** A run of ticks on one enemy object, one [Rolls] per tick. *)
Fixpoint runTicks (cfg : EnemyConfig) (rs : list Rolls) (e : Enemy)
  (s : EnemyState) : Enemy * EnemyState :=
  match rs with
  | [] => (e, s)
  | r :: rest =>
      match updateEnemyMovement cfg r (Some e) s with
      | (Some e', s') => runTicks cfg rest e' s'
      | (None, s') => (e, s')
      end
  end.

(** *** Notions the properties are stated with *)

(** The direction the move of this tick follows: the stored one, or
    its opposite when the direction roll succeeds. *)
Definition headingOf (cfg : EnemyConfig) (r : Rolls) (s : EnemyState) : Z :=
  direction (maybeChangeDirection cfg (directionRoll r) s).

(** The part of a tick that follows the crouch evaluation: the pause
    countdown, the pause roll, the direction roll and the move. *)
Definition pauseOrMove (cfg : EnemyConfig) (r : Rolls) (e : Enemy)
  (s : EnemyState) : Enemy * EnemyState :=
  if isPaused s then
    let s := set_pauseTimer (pauseTimer s - 1)%Z s in
    let s := if (pauseTimer s <=? 0)%Z then set_isPaused false s else s in
    (e, s)
  else if Qlt_bool (pauseRoll r) (pauseChance cfg) then
    let s := set_isPaused true s in
    let s := set_pauseTimer (pauseDuration cfg) s in
    (e, s)
  else
    moveHorizontally cfg e (maybeChangeDirection cfg (directionRoll r) s).

(** The part of a tick that comes first: the standing height, then the
    crouch evaluation. *)
Definition evaluateCrouch (cfg : EnemyConfig) (r : Rolls) (e : Enemy)
  (s : EnemyState) : Enemy * EnemyState :=
  let '(e, s) := holdStandingHeight cfg e s in
  handleCrouching cfg (crouchRoll r) e s.

(** The base a mesh is restored to at the end of a crouch that starts
    now: the stored [originalY] when it is truthy, the current offset
    otherwise. *)
Definition baseOffset (m : Mesh) : Q :=
  match userOriginalY m with
  | Some o => if truthy (Some o) then o else meshY m
  | None => meshY m
  end.

(** The vertical offset of the part in a slot, and the base it will be
    restored to. *)
Definition partOffset (e : Enemy) (ref : option nat) : option Q :=
  option_map meshY (deref (children e) ref).

Definition partBase (e : Enemy) (ref : option nat) : option Q :=
  option_map baseOffset (deref (children e) ref).

(** A mesh whose stored [originalY] is [q]; a stored zero is only ever
    the offset itself, since a zero is overwritten by the next record. *)
Definition hasBase (q : Q) (m : Mesh) : Prop :=
  userOriginalY m = Some q /\ (truthy (Some q) = false -> meshY m = q).

(** A mesh that has base [q] and sits on it. *)
Definition onBase (q : Q) (m : Mesh) : Prop :=
  hasBase q m /\ meshY m = q.

(** A mesh whose base, were a crouch to start now, is [q]. *)
Definition wouldHaveBase (q : Q) (m : Mesh) : Prop := baseOffset m = q.

(** A property of the part in a slot, indexed by an expected value; an
    empty slot goes with no value. *)
Definition holds (P : Q -> Mesh -> Prop) (ch : list Mesh)
  (ref : option nat) (b : option Q) : Prop :=
  match deref ch ref, b with
  | Some m, Some q => P q m
  | None, None => True
  | _, _ => False
  end.

(** A standing pose that sits on its recorded bases: the scale is the
    stored [originalScale], and no tracked part has been moved away
    from a base recorded for it earlier. *)
Definition settled (e : Enemy) (s : EnemyState) : Prop :=
  scaleY e = originalScale s /\
  partBase e (head (bodyParts s)) = partOffset e (head (bodyParts s)) /\
  partBase e (body (bodyParts s)) = partOffset e (body (bodyParts s)) /\
  partBase e (weapon (bodyParts s)) = partOffset e (weapon (bodyParts s)).

(** The state in the middle of a crouch with [k] ticks to go. *)
Definition crouchingFor (k : Z) (scale : Q) (parts : BodyParts)
  (h b w : option Q) (e : Enemy) (s : EnemyState) : Prop :=
  isCrouching s = true /\ crouchTimer s = k /\ originalScale s = scale /\
  bodyParts s = parts /\
  holds hasBase (children e) (head parts) h /\
  holds hasBase (children e) (body parts) b /\
  holds hasBase (children e) (weapon parts) w.

(** The pose a crouch cycle brings back: scale, standing height and
    the three tracked offsets. *)
Definition restoredTo (cfg : EnemyConfig) (scale : Q) (parts : BodyParts)
  (h b w : option Q) (e : Enemy) (s : EnemyState) : Prop :=
  isCrouching s = false /\
  scaleY e = scale /\
  originalScale s = scale /\
  positionY e = initialPositionY cfg /\
  bodyParts s = parts /\
  holds onBase (children e) (head parts) h /\
  holds onBase (children e) (body parts) b /\
  holds onBase (children e) (weapon parts) w.

Definition validDirection (s : EnemyState) : Prop :=
  (direction s = 1 \/ direction s = -1)%Z.

Definition inBounds (cfg : EnemyConfig) (e : Enemy) : Prop :=
  minX cfg <= positionX e /\ positionX e <= maxX cfg.

(** While a pause lasts its timer is positive. *)
Definition pauseTimerLive (s : EnemyState) : Prop :=
  isPaused s = true -> (1 <= pauseTimer s)%Z.

(** *** Sample inputs *)

(** Rolls that start a crouch and neither pause nor turn the enemy. *)
Definition crouchNow : Rolls :=
  {| crouchRoll := 0; pauseRoll := 1 # 2; directionRoll := 1 # 2 |}.

(** Rolls that trigger nothing. *)
Definition quiet : Rolls :=
  {| crouchRoll := 1 # 2; pauseRoll := 1 # 2; directionRoll := 1 # 2 |}.

(** Rolls that flip the direction without starting a crouch or a
    pause. *)
Definition turnRound : Rolls :=
  {| crouchRoll := 1 # 2; pauseRoll := 1 # 2; directionRoll := 0 |}.

(** A plain mesh on the axis at height [y] whose [originalY] is [o]. *)
Definition meshAt (y : Q) (o : option Q) : Mesh :=
  {| hasGeometry := true; isGroup := false; meshX := 0; meshY := y;
     meshZ := 0; userOriginalY := o |}.

(** An enemy at horizontal position [x], standing, with the given
    children. *)
Definition enemyAt (x : Q) (ch : list Mesh) : Enemy :=
  {| positionX := x; positionY := 5 # 2; positionZ := 0; scaleY := 1;
     children := ch |}.

(** The initial state with the head slot on the first child. *)
Definition headTracked : EnemyState :=
  set_bodyParts {| head := Some 0%nat; body := None; weapon := None;
                   legs := [] |} enemyState0.

(** A state in the middle of a pause with [k] ticks to go. *)
Definition pausedFor (k : Z) : EnemyState :=
  set_pauseTimer k (set_isPaused true enemyState0).

(** A state in the middle of an encounter: heading right, twelve ticks
    into the rest of a crouch, thirty into the rest of a pause. *)
Definition midEncounter : EnemyState :=
  {| direction := 1%Z; isCrouching := true; crouchTimer := 12%Z;
     isPaused := true; pauseTimer := 30%Z;
     originalScale := 1; originalY := 5 # 2;
     bodyParts := bodyParts enemyState0 |}.

(** A model of four meshes: a head, a torso, a gun held out to the
    side, a leg. *)
Definition fourParts : list Mesh :=
  [ {| hasGeometry := true; isGroup := false; meshX := 0; meshY := 8;
       meshZ := 0; userOriginalY := None |};
    {| hasGeometry := true; isGroup := false; meshX := 0; meshY := 3;
       meshZ := 0; userOriginalY := None |};
    {| hasGeometry := true; isGroup := false; meshX := - (5 # 1); meshY := 3;
       meshZ := 0; userOriginalY := None |};
    {| hasGeometry := true; isGroup := false; meshX := 1; meshY := - (2 # 1);
       meshZ := 0; userOriginalY := None |} ].

End EnemyMovement.

(** ** bullet_origin_fix.js *)

Module BulletOrigin.
Local Open Scope Q_scope.

(** [bulletOriginConfig], exported as [BulletOrigin.config]. *)
Record BulletOriginConfig : Type := mkBulletOriginConfig {
  offsetX : Q;
  offsetY : Q;
  crouchOffsetY : Q;
  debugMode : bool;
  shotCooldown : Z
}.

Definition bulletOriginConfig : BulletOriginConfig :=
  {| offsetX := - (115 # 10);
     offsetY := 75 # 10;
     crouchOffsetY := - (45 # 10);
     debugMode := false;
     shotCooldown := 1000 |}.

(** [bulletOriginState].  [originMarker] is the position of the debug
    sphere when there is one; [lastShotHeight] is [null], [true] (high)
    or [false] (low); [lastShotTime] is a [Date.now()] value, an
    integer number of milliseconds. *)
Record BulletOriginState : Type := mkBulletOriginState {
  originMarker : option Vector3;
  lastKnownPosition : Vector3;
  lastShotHeight : option bool;
  lastShotTime : Z;
  highThreshold : Q
}.

Definition bulletOriginState0 : BulletOriginState :=
  {| originMarker := None;
     lastKnownPosition := {| vx := 0; vy := 0; vz := 0 |};
     lastShotHeight := None;
     lastShotTime := 0;
     highThreshold := 4 |}.

Definition set_originMarker (v : option Vector3) (s : BulletOriginState)
  : BulletOriginState :=
  {| originMarker := v; lastKnownPosition := lastKnownPosition s;
     lastShotHeight := lastShotHeight s; lastShotTime := lastShotTime s;
     highThreshold := highThreshold s |}.

Definition set_lastKnownPosition (v : Vector3) (s : BulletOriginState)
  : BulletOriginState :=
  {| originMarker := originMarker s; lastKnownPosition := v;
     lastShotHeight := lastShotHeight s; lastShotTime := lastShotTime s;
     highThreshold := highThreshold s |}.

Definition set_lastShotHeight (v : option bool) (s : BulletOriginState)
  : BulletOriginState :=
  {| originMarker := originMarker s;
     lastKnownPosition := lastKnownPosition s;
     lastShotHeight := v; lastShotTime := lastShotTime s;
     highThreshold := highThreshold s |}.

Definition set_lastShotTime (v : Z) (s : BulletOriginState)
  : BulletOriginState :=
  {| originMarker := originMarker s;
     lastKnownPosition := lastKnownPosition s;
     lastShotHeight := lastShotHeight s; lastShotTime := v;
     highThreshold := highThreshold s |}.

Definition set_vx (v : Q) (p : Vector3) : Vector3 :=
  {| vx := v; vy := vy p; vz := vz p |}.

Definition set_vy (v : Q) (p : Vector3) : Vector3 :=
  {| vx := vx p; vy := v; vz := vz p |}.

(** [new THREE.Vector3().copy(enemy.position)]. *)
Definition enemyPosition (e : EnemyMovement.Enemy) : Vector3 :=
  {| vx := EnemyMovement.positionX e;
     vy := EnemyMovement.positionY e;
     vz := EnemyMovement.positionZ e |}.

(** The body of [updateBulletOriginPosition] once the enemy is known to
    exist: the origin before it is cached.  What it reads outside its
    own module is passed in:
    - [e]: the global [enemy];
    - [movement]: [EnemyMovement.state], [None] when the movement
      module is not loaded;
    - [getWorldPosition]: the scene graph's resolution of a mesh to its
      world position. *)
Definition computeOrigin (cfg : BulletOriginConfig)
  (getWorldPosition : EnemyMovement.Mesh -> Vector3)
  (e : EnemyMovement.Enemy) (movement : option EnemyMovement.EnemyState)
  : Vector3 :=
  let originPosition := enemyPosition e in
  let originPosition := set_vx (vx originPosition + offsetX cfg) originPosition in
  let originPosition := set_vy (vy originPosition + offsetY cfg) originPosition in
  match movement with
  | None => originPosition
  | Some ms =>
      let originPosition :=
        if EnemyMovement.isCrouching ms
        then set_vy (vy originPosition + crouchOffsetY cfg) originPosition
        else originPosition in
      match EnemyMovement.deref (EnemyMovement.children e)
              (EnemyMovement.weapon (EnemyMovement.bodyParts ms)) with
      | None => originPosition
      | Some w =>
          let weaponWorldPos := getWorldPosition w in
          let originPosition := set_vx (vx weaponWorldPos - 9) originPosition in
          let originPosition := set_vy (vy weaponWorldPos + 4) originPosition in
          if EnemyMovement.isCrouching ms
          then set_vy (vy originPosition - 3) originPosition
          else originPosition
      end
  end.

(** [updateBulletOriginPosition()]; [enemy] is [None] when the global
    is undefined or [null].  The value returned is the
    [lastKnownPosition] object itself. *)
Definition updateBulletOriginPosition (cfg : BulletOriginConfig)
  (getWorldPosition : EnemyMovement.Mesh -> Vector3)
  (enemy : option EnemyMovement.Enemy)
  (movement : option EnemyMovement.EnemyState)
  (s : BulletOriginState) : Vector3 * BulletOriginState :=
  match enemy with
  | None => (lastKnownPosition s, s)
  | Some e =>
      let originPosition := computeOrigin cfg getWorldPosition e movement in
      let s :=
        match originMarker s with
        | Some _ => set_originMarker (Some originPosition) s
        | None => s
        end in
      let s := set_lastKnownPosition originPosition s in
      (lastKnownPosition s, s)
  end.

(** [getBulletOriginPosition()]. *)
Definition getBulletOriginPosition := updateBulletOriginPosition.

(** [canFireAtHeight(height)]; [currentTime] is what [Date.now()]
    returns. *)
Definition canFireAtHeight (cfg : BulletOriginConfig) (currentTime : Z)
  (height : Q) (s : BulletOriginState) : bool * BulletOriginState :=
  let isHighShot := Qle_bool (highThreshold s) height in
  match lastShotHeight s with
  | None =>
      let s := set_lastShotHeight (Some isHighShot) s in
      let s := set_lastShotTime currentTime s in
      (true, s)
  | Some wasHighShot =>
      if Bool.eqb isHighShot wasHighShot then
        (true, set_lastShotTime currentTime s)
      else
        let timeSinceLastShot := (currentTime - lastShotTime s)%Z in
        if (shotCooldown cfg <=? timeSinceLastShot)%Z then
          let s := set_lastShotHeight (Some isHighShot) s in
          let s := set_lastShotTime currentTime s in
          (true, s)
        else (false, s)
  end.

(** The classification the gate gives a height. *)
Definition isHigh (s : BulletOriginState) (height : Q) : bool :=
  Qle_bool (highThreshold s) height.

(** The state after a first shot, high, at time 1000. *)
Definition afterHighShot : BulletOriginState :=
  set_lastShotTime 1000 (set_lastShotHeight (Some true) bulletOriginState0).

End BulletOrigin.

(** * Further definitions

    What the remaining properties are stated with: traces of calls,
    and the parts of the source the sections above did not reach. *)

(** ** Health accounting *)

Module HealthAccounting.
Import EnemyDamage.
Local Open Scope Z_scope.

(** Whether a call is a line reported as successful. *)
Definition isSuccess (c : Call) : bool :=
  match c with
  | CallApplyDamage _ true => true
  | _ => false
  end.

(** The number of lines reported as successful in a run of calls. *)
Fixpoint successes (cs : list Call) : Z :=
  match cs with
  | [] => 0
  | c :: rest => (if isSuccess c then 1 else 0) + successes rest
  end.

Definition resetFree (cs : list Call) : bool :=
  forallb (fun c => negb (isReset c)) cs.

(** The state [k] successful lines after a refill, as far as health is
    concerned. *)
Definition drainedBy (k : Z) (s : EnemyState) : Prop :=
  0 <= k /\
  currentHealth s = Z.max 0 (maxHealth - damagePerLineBase * k) /\
  totalDamageDealt s = damagePerLineBase * Z.min k 35 /\
  linesCompleted s <= k /\
  (isDefeated s = true <-> 35 <= k).

(** Health never outruns the lines counted since the last track or
    refill. *)
Definition paced (s : EnemyState) : Prop :=
  currentHealth s = 0 \/
  currentHealth s + damagePerLineBase * linesCompleted s <= maxHealth.

(** Whether a string has a code unit that [trim] would keep. *)
Definition hasVisibleUnit (t : JSString.t) : bool :=
  existsb (fun c => negb (JSString.isWhiteSpace c)) t.

Definition hasVisibleLine (l : Lyric) : bool :=
  match text l with
  | None => false
  | Some t => hasVisibleUnit t
  end.

End HealthAccounting.

(** ** Shot pacing *)

Module ShotPacing.
Import BulletOrigin.
Local Open Scope Z_scope.

(** A request to fire: the time [Date.now()] shows and the height
    asked for. *)
Definition Request : Type := (Z * Q)%type.

(** An allowed shot: its time and whether it was high. *)
Definition Shot : Type := (Z * bool)%type.

(** The shot the gate remembers. *)
Definition lastShot (s : BulletOriginState) : option Shot :=
  option_map (fun high => (lastShotTime s, high)) (lastShotHeight s).

(** A run of requests through [canFireAtHeight]: the shots it allows,
    in order, and the state it ends in. *)
Fixpoint fireLog (cfg : BulletOriginConfig) (reqs : list Request)
  (s : BulletOriginState) : list Shot * BulletOriginState :=
  match reqs with
  | [] => ([], s)
  | (now, height) :: rest =>
      let '(allowed, s1) := canFireAtHeight cfg now height s in
      let '(shots, s2) := fireLog cfg rest s1 in
      ((if allowed then [(now, isHigh s height)] else []) ++ shots, s2)
  end.

(** Shots that change class only after the cooldown: each shot of a
    class other than the one before it comes at least [shotCooldown]
    after that one. *)
Fixpoint pacedFrom (cfg : BulletOriginConfig) (last : option Shot)
  (shots : list Shot) : Prop :=
  match shots with
  | [] => True
  | (t, high) :: rest =>
      match last with
      | Some (t0, high0) => high0 <> high -> shotCooldown cfg <= t - t0
      | None => True
      end /\ pacedFrom cfg (Some (t, high)) rest
  end.

(** Sample inputs: a scene graph that adds the enemy's position to a
    mesh's own, a movement state that tracks the third child as the
    weapon, and a configuration with other offsets. *)
Definition worldAt (e : EnemyMovement.Enemy) (m : EnemyMovement.Mesh)
  : Vector3 :=
  {| vx := (EnemyMovement.positionX e + EnemyMovement.meshX m)%Q;
     vy := (EnemyMovement.positionY e + EnemyMovement.meshY m)%Q;
     vz := (EnemyMovement.positionZ e + EnemyMovement.meshZ m)%Q |}.

Definition weaponTracked : EnemyMovement.EnemyState :=
  EnemyMovement.set_bodyParts
    {| EnemyMovement.head := None; EnemyMovement.body := None;
       EnemyMovement.weapon := Some 2%nat; EnemyMovement.legs := [] |}
    EnemyMovement.enemyState0.

Definition otherOffsets : BulletOriginConfig :=
  {| offsetX := 0%Q; offsetY := 0%Q; crouchOffsetY := 0%Q;
     debugMode := true; shotCooldown := 5 |}.

End ShotPacing.

(** ** Part selection and crouch pose *)

Module PartSelection.
Import EnemyMovement.
Local Open Scope Q_scope.

(** The candidate a pass keeps when it meets another: the newcomer
    only when its key is strictly larger. *)
Definition keepBest (key : Mesh -> Q) (best : option (nat * Mesh))
  (x : nat * Mesh) : option (nat * Mesh) :=
  match best with
  | None => Some x
  | Some y => if Qlt_bool (key (snd y)) (key (snd x)) then Some x else Some y
  end.

(** One left-to-right pass over the children from index [k] on. *)
Fixpoint pickBest (p : Mesh -> bool) (key : Mesh -> Q) (ch : list Mesh)
  (k : nat) (best : option (nat * Mesh)) : option (nat * Mesh) :=
  match ch with
  | [] => best
  | c :: rest =>
      pickBest p key rest (S k)
        (if p c then keepBest key best (k, c) else best)
  end.

(** Child [i] is the choice among the children that satisfy [p]: none
    has a larger key, and none before it has an equal one. *)
Definition bestOf (p : Mesh -> bool) (key : Mesh -> Q) (ch : list Mesh)
  (i : nat) : Prop :=
  exists m,
    ch !! i = Some m /\ p m = true /\
    forall j m', ch !! j = Some m' -> p m' = true ->
      key m' <= key m /\ ((j < i)%nat -> key m' < key m).

(** The pass has seen the children before index [k] of [full], and
    [best] is the choice among those. *)
Definition chosenUpTo (p : Mesh -> bool) (key : Mesh -> Q)
  (full : list Mesh) (k : nat) (best : option (nat * Mesh)) : Prop :=
  match best with
  | None =>
      forall j m, (j < k)%nat -> full !! j = Some m -> p m = false
  | Some (i, m) =>
      (i < k)%nat /\ full !! i = Some m /\ p m = true /\
      forall j m', (j < k)%nat -> full !! j = Some m' -> p m' = true ->
        key m' <= key m /\ ((j < i)%nat -> key m' < key m)
  end.

(** What [init] leaves in a slot: the old reference when no child
    qualifies, the choice otherwise. *)
Definition slotAfterInit (p : Mesh -> bool) (key : Mesh -> Q)
  (ch : list Mesh) (old new : option nat) : Prop :=
  (new = old /\ forall j m, ch !! j = Some m -> p m = false) \/
  (exists i, new = Some i /\ bestOf p key ch i).

Definition sideReach (c : Mesh) : Q := Qabs (meshX c).

(** The offset a part with base [q] is held at during a crouch that
    lowers it by [drop]: a base of zero is not lowered. *)
Definition loweredBy (drop : Q) (q : Q) : Q :=
  if truthy (Some q) then q - drop else q.

Definition heldAt (drop : Q) (q : Q) (m : Mesh) : Prop :=
  hasBase q m /\ meshY m = loweredBy drop q.

(** The pose every tick of a crouch leaves behind.  The three writes
    of [maintainCrouchState] come in the order head, body, weapon, so
    where two slots share a mesh the later write is the one that
    shows. *)
Definition crouchedPose (cfg : EnemyConfig) (scale : Q) (parts : BodyParts)
  (h b w : option Q) (e : Enemy) : Prop :=
  scaleY e = scale / crouchScale cfg /\
  positionY e = initialPositionY cfg + crouchPositionY cfg /\
  partOffset e (weapon parts)
    = option_map (loweredBy (crouchAmount cfg * (8 # 10))) w /\
  (body parts <> weapon parts ->
   partOffset e (body parts)
     = option_map (loweredBy (crouchAmount cfg * (8 # 10))) b) /\
  (head parts <> body parts -> head parts <> weapon parts ->
   partOffset e (head parts) = option_map (loweredBy (crouchAmount cfg)) h).

End PartSelection.

(** ** bullet_collision_fix.js: the muzzle flash particles *)

Module MuzzleFlash.
Local Open Scope Z_scope.

(** A particle of the flash: the time [Date.now()] showed when it was
    made, and where it is. *)
Record Particle : Type := mkParticle {
  createdAt : Z;
  particlePosition : Vector3
}.

Definition particleLifetime : Z := 500.

(** [now - particle.createdAt > particleLifetime]. *)
Definition expired (now : Z) (p : Particle) : bool :=
  particleLifetime <? now - createdAt p.

(** The loop of [cleanupParticles], about to visit index [n - 1] and
    then the indices below it.  An expired particle is first handed to
    [scene.remove], which throws when [scene] is still [null], and
    then cut out of the array with [splice(i, 1)].  The result is how
    the loop ends and the array as it then is. *)
Fixpoint cleanupBelow (scene : bool) (now : Z) (n : nat)
  (particles : list Particle) : Completion unit * list Particle :=
  match n with
  | O => (Returned tt, particles)
  | S i =>
      match particles !! i with
      | None => (Thrown, particles)
      | Some particle =>
          if expired now particle then
            if scene then cleanupBelow scene now i (delete i particles)
            else (Thrown, particles)
          else cleanupBelow scene now i particles
      end
  end.

(** [cleanupParticles()]; [scene] tells whether the module's [scene]
    is set, [now] is what [Date.now()] returns. *)
Definition cleanupParticles (scene : bool) (now : Z)
  (particles : list Particle) : Completion unit * list Particle :=
  cleanupBelow scene now (length particles) particles.

Definition alive (now : Z) (p : Particle) : bool := negb (expired now p).

End MuzzleFlash.

(** * Properties of the health tracker *)

Module EnemyDamageFacts.
Import EnemyDamage.
Local Open Scope Z_scope.

Lemma healthy_initial : healthy enemyState0.
Proof.
  unfold healthy, enemyState0, maxHealth; simpl.
  repeat split; try lia; discriminate.
Qed.

Lemma healthy_reset s : healthy (resetEnemyDamageSystem s).
Proof.
  unfold healthy, resetEnemyDamageSystem, maxHealth; simpl.
  repeat split; try lia; discriminate.
Qed.

Lemma healthy_setCurrentTrack d s :
  healthy s -> healthy (setCurrentTrack d s).
Proof.
  unfold setCurrentTrack.
  destruct d as [[[[|l ls]|]]|]; auto.
Qed.

(** What a call that gets past both guards writes. *)
Lemma applyDamage_accepted container s :
  isDefeated s = false ->
  let dmg :=
    if 35 <=? linesCompleted s + 1
    then Z.max damagePerLineBase (currentHealth s)
    else damagePerLineBase in
  let h := Z.max 0 (currentHealth s - dmg) in
  snd (applyDamage container true s) =
    {| currentHealth := h;
       totalDamageDealt := totalDamageDealt s + dmg;
       linesCompleted := linesCompleted s + 1;
       lineCount := lineCount s;
       isDefeated := h <=? 0 |}.
Proof.
  destruct s as [h0 t0 l0 c0 d0]. simpl. intros ->.
  unfold applyDamage. simpl.
  set (dmg := if 35 <=? l0 + 1 then Z.max damagePerLineBase h0
              else damagePerLineBase).
  destruct (Z.leb_spec (Z.max 0 (h0 - dmg)) 0) as [Hh | Hh];
    destruct container; simpl; try reflexivity.
  all: replace (Z.max 0 (h0 - dmg)) with 0 by lia; reflexivity.
Qed.

Lemma applyDamage_skipped container isSuccessful s :
  isDefeated s = true \/ isSuccessful = false ->
  applyDamage container isSuccessful s = (Returned noDamage, s).
Proof.
  unfold applyDamage. intros [H | H]; rewrite H.
  - reflexivity.
  - destruct (isDefeated s); reflexivity.
Qed.

Lemma healthy_applyDamage container ok s :
  healthy s -> healthy (snd (applyDamage container ok s)).
Proof.
  intros Hs.
  destruct (isDefeated s) eqn:Hd.
  - rewrite applyDamage_skipped by auto. exact Hs.
  - destruct ok.
    + rewrite applyDamage_accepted by assumption.
      destruct Hs as [Hr _]. unfold healthy, damagePerLineBase, maxHealth in *.
      simpl. rewrite Z.leb_le.
      destruct (35 <=? linesCompleted s + 1); repeat split; intros; lia.
    + rewrite applyDamage_skipped by auto. exact Hs.
Qed.

Lemma healthy_step s c : healthy s -> healthy (step s c).
Proof.
  destruct c; simpl; intros.
  - now apply healthy_applyDamage.
  - now apply healthy_setCurrentTrack.
  - apply healthy_reset.
  - apply healthy_reset.
Qed.

Lemma reachable_healthy s : reachable s -> healthy s.
Proof.
  induction 1.
  - apply healthy_initial.
  - now apply healthy_step.
Qed.

Lemma reachable_run s cs : reachable s -> reachable (run s cs).
Proof.
  unfold run. revert s.
  induction cs as [|c cs IH]; simpl; intros s Hs.
  - exact Hs.
  - apply IH. now constructor.
Qed.

(** A call other than a reset never raises the health and never clears
    the defeat flag. *)
Lemma step_descends s c :
  healthy s -> isReset c = false ->
  currentHealth (step s c) <= currentHealth s /\
  (isDefeated s = true -> isDefeated (step s c) = true).
Proof.
  intros Hs Hc. destruct c as [container ok | d | |]; simpl in *;
    try discriminate.
  - destruct (isDefeated s) eqn:Hd.
    + rewrite applyDamage_skipped by auto. cbn [snd]. split; [lia | congruence].
    + destruct ok.
      * rewrite applyDamage_accepted by assumption.
        cbn [currentHealth isDefeated].
        destruct Hs as [Hr _]. unfold damagePerLineBase in *.
        split; [|congruence].
        destruct (35 <=? linesCompleted s + 1); lia.
      * rewrite applyDamage_skipped by auto. cbn [snd]. split; [lia | congruence].
  - unfold setCurrentTrack.
    destruct d as [[[[|l ls]|]]|]; simpl; split; auto; lia.
Qed.

Lemma run_descends cs : forall s,
  healthy s -> forallb (fun c => negb (isReset c)) cs = true ->
  currentHealth (run s cs) <= currentHealth s /\
  (isDefeated s = true -> isDefeated (run s cs) = true).
Proof.
  unfold run.
  induction cs as [|c cs IH]; simpl; intros s Hs Hcs.
  - split; [lia | auto].
  - apply andb_true_iff in Hcs. destruct Hcs as [Hc Hcs].
    apply negb_true_iff in Hc.
    destruct (step_descends s c Hs Hc) as [H1 H2].
    destruct (IH (step s c) (healthy_step s c Hs) Hcs) as [H3 H4].
    split; [lia | auto].
Qed.

(** With the 35 lines the module starts with, the thirty-fifth accepted
    call empties the pool. *)
Lemma thirty_five_lines_defeat :
  let s := run (resetEnemyDamageSystem enemyState0)
               (repeat (CallApplyDamage true true) 35) in
  currentHealth s = 0 /\ isDefeated s = true /\ linesCompleted s = 35 /\
  currentHealth (run (resetEnemyDamageSystem enemyState0)
                     (repeat (CallApplyDamage true true) 34)) = 14.
Proof. vm_compute. auto. Qed.

Lemma countLines_filter ls : forall acc,
  countLines ls acc = acc + countWhere hasTextContent ls.
Proof.
  unfold countWhere.
  induction ls as [|l ls IH]; intros acc; simpl.
  - lia.
  - rewrite IH. destruct (hasTextContent l); simpl length; lia.
Qed.

Lemma hasTextContent_visible l : hasTextContent l = hasVisibleText l.
Proof.
  unfold hasTextContent, hasVisibleText.
  destruct (text l) as [[|c t]|]; reflexivity.
Qed.

Lemma countWhere_ext p q ls :
  (forall l, p l = q l) -> countWhere p ls = countWhere q ls.
Proof.
  intros H. unfold countWhere. f_equal. f_equal.
  induction ls as [|l ls IH]; simpl; [reflexivity|].
  rewrite H, IH. reflexivity.
Qed.

Lemma run_snoc s cs c : run s (cs ++ [c]) = step (run s cs) c.
Proof. unfold run. rewrite fold_left_app. reflexivity. Qed.

(** Whatever track is set, the first thirty-four accepted lines after a
    reset each take the base damage and none of them is the final
    line: the count [setCurrentTrack] stores is not consulted. *)
Lemma accepted_lines_before_35 container d s (n : nat) :
  (n <= 34)%nat ->
  let s0 := setCurrentTrack d (resetEnemyDamageSystem s) in
  let sn := run s0 (repeat (CallApplyDamage container true) n) in
  currentHealth sn = 1000 - 29 * Z.of_nat n /\
  isDefeated sn = false /\
  linesCompleted sn = Z.of_nat n /\
  lineCount sn = lineCount s0.
Proof.
  intros Hn. cbv zeta.
  induction n as [|n IH].
  - unfold run; cbn [repeat fold_left].
    unfold setCurrentTrack. destruct d as [[[[|l ls]|]]|]; repeat split.
  - destruct IH as (Hh & Hd & Hl & Hc); [lia|].
    replace (repeat (CallApplyDamage container true) (S n))
      with (repeat (CallApplyDamage container true) n
            ++ [CallApplyDamage container true])
      by (symmetry; apply repeat_cons).
    rewrite run_snoc. cbn [step].
    rewrite applyDamage_accepted by exact Hd.
    cbn [currentHealth isDefeated linesCompleted lineCount].
    rewrite Hh, Hl, Hc.
    destruct (Z.leb_spec 35 (Z.of_nat n + 1)); [lia|].
    unfold damagePerLineBase.
    destruct (Z.leb_spec (Z.max 0 (1000 - 29 * Z.of_nat n - 29)) 0);
      repeat split; lia.
Qed.

(** C1 (the code at the failing input): on a track of ten lines the
    tenth accepted line is not treated as the final one.  After a
    reset and [setCurrentTrack] with ten lines, nine accepted calls
    leave 739 health; the tenth deals the base 29, reports
    [isFinalLine = false], and leaves the enemy alive with 710. *)
Theorem ten_line_track_outlives_its_last_line :
  let s0 := setCurrentTrack (trackOfLines 10)
              (resetEnemyDamageSystem enemyState0) in
  let s9 := run s0 (repeat (CallApplyDamage true true) 9) in
  lineCount s0 = 10 /\ linesCompleted s0 = 0 /\
  linesCompleted s9 = 9 /\ currentHealth s9 = 739 /\
  applyDamage true true s9 =
    (Returned {| damage := 29; remainingHealth := Some 710;
                 isFinalLine := Some false;
                 infoIsDefeated := Some false |},
     {| currentHealth := 710; totalDamageDealt := 290;
        linesCompleted := 10; lineCount := 10; isDefeated := false |}).
Proof. vm_compute. repeat split. Qed.

(** C7: a call on a defeated enemy, or a call that is not successful,
    returns [{ damage: 0 }] and leaves the whole state as it was, in
    particular [currentHealth], [totalDamageDealt], [linesCompleted]
    and [isDefeated]. *)
Theorem applyDamage_rejection_is_noop container isSuccessful s :
  isDefeated s = true \/ isSuccessful = false ->
  let '(result, s') := applyDamage container isSuccessful s in
  result = Returned noDamage /\ damage noDamage = 0 /\
  currentHealth s' = currentHealth s /\
  totalDamageDealt s' = totalDamageDealt s /\
  linesCompleted s' = linesCompleted s /\
  isDefeated s' = isDefeated s /\
  s' = s.
Proof.
  intros H. rewrite (applyDamage_skipped container isSuccessful s H).
  repeat split.
Qed.

Lemma applyDamage_rejection_is_noop_witness :
  (isDefeated enemyState0 = true \/ false = false) /\
  applyDamage false false enemyState0 = (Returned noDamage, enemyState0).
Proof.
  split; [right; reflexivity|].
  pose proof (applyDamage_rejection_is_noop false false enemyState0
                (or_intror eq_refl)) as H.
  destruct (applyDamage false false enemyState0) as [result s'].
  destruct H as (-> & _ & _ & _ & _ & _ & ->). reflexivity.
Defined.

(** C8: in every state reachable from the initial one by calls to
    [applyDamage], [setCurrentTrack] and the reset (or the
    initialisation, which resets as well), the health is zero
    exactly when the enemy is defeated; and along any further calls
    that contain no reset the health never goes up and a defeat is
    never taken back. *)
Theorem health_descends_until_reset s cs :
  reachable s ->
  forallb (fun c => negb (isReset c)) cs = true ->
  (currentHealth s = 0 <-> isDefeated s = true) /\
  currentHealth (run s cs) <= currentHealth s /\
  (isDefeated s = true -> isDefeated (run s cs) = true).
Proof.
  intros Hs Hcs. pose proof (reachable_healthy s Hs) as Hh.
  split; [exact (proj2 Hh)|].
  now apply run_descends.
Qed.

Lemma health_descends_until_reset_witness :
  let s := step enemyState0 (CallApplyDamage true true) in
  let cs := [CallSetCurrentTrack (trackOfLines 3);
             CallApplyDamage true true; CallApplyDamage false false] in
  currentHealth s = 971 /\
  currentHealth (run s cs) <= currentHealth s.
Proof.
  split; [reflexivity|].
  apply (health_descends_until_reset
           (step enemyState0 (CallApplyDamage true true))
           [CallSetCurrentTrack (trackOfLines 3);
            CallApplyDamage true true; CallApplyDamage false false]).
  - apply reachable_step, reachable_init.
  - reflexivity.
Defined.

(** C10, as stated, fails: a line whose text is a single space has a
    non-empty text, and [setCurrentTrack] does not count it. *)
Lemma setCurrentTrack_skips_blank_text :
  ~ (forall ls s, ls <> [] ->
       lineCount (setCurrentTrack (Some {| lyrics := Some ls |}) s)
       = countWhere hasNonEmptyText ls).
Proof.
  intros H.
  specialize (H [ {| text := Some [32%N] |} ] enemyState0).
  vm_compute in H. discriminate H. discriminate.
Qed.

(** C10, amended: with a non-empty [lyrics] array, [setCurrentTrack]
    sets [lineCount] to the number of lines whose text is still
    non-empty after [trim], sets [linesCompleted] to zero and leaves
    [currentHealth], [totalDamageDealt] and [isDefeated] alone; with
    no data, no [lyrics] or an empty array it changes nothing. *)
Theorem setCurrentTrack_effect lrcData s :
  let s' := setCurrentTrack lrcData s in
  match lrcData with
  | Some {| lyrics := Some (l :: ls) |} =>
      lineCount s' = countWhere hasVisibleText (l :: ls) /\
      linesCompleted s' = 0 /\
      currentHealth s' = currentHealth s /\
      totalDamageDealt s' = totalDamageDealt s /\
      isDefeated s' = isDefeated s
  | _ => s' = s
  end.
Proof.
  destruct lrcData as [[[[|l ls]|]]|]; try reflexivity.
  cbv zeta. unfold setCurrentTrack. cbn [lyrics].
  cbn [lineCount linesCompleted currentHealth totalDamageDealt isDefeated
       set_linesCompleted set_lineCount].
  rewrite countLines_filter.
  rewrite (countWhere_ext _ _ _ hasTextContent_visible).
  repeat split.
Qed.

End EnemyDamageFacts.

(** * Properties of locomotion and pose *)

Module EnemyMovementFacts.
Import EnemyMovement.
Local Open Scope Q_scope.

Ltac split_ifs :=
  repeat match goal with
         | |- context [if ?c then _ else _] => destruct c eqn:?
         end.

(** A tick is the crouch evaluation followed by the pause-or-move
    part. *)
Lemma update_phases cfg r e s :
  updateEnemyMovement cfg r (Some e) s =
  let '(e1, s1) := evaluateCrouch cfg r e s in
  let '(e2, s2) := pauseOrMove cfg r e1 s1 in
  (Some e2, s2).
Proof.
  unfold updateEnemyMovement, evaluateCrouch, pauseOrMove.
  destruct (holdStandingHeight cfg e s) as [e0 s0].
  destruct (handleCrouching cfg (crouchRoll r) e0 s0) as [e1 s1].
  destruct (isPaused s1); [reflexivity|].
  destruct (Qlt_bool (pauseRoll r) (pauseChance cfg)); [reflexivity|].
  destruct (moveHorizontally cfg e1 _); reflexivity.
Qed.

(** The crouch evaluation leaves the patrol untouched, and the slots
    where they point. *)
Lemma evaluateCrouch_frame cfg r e s :
  let '(e1, s1) := evaluateCrouch cfg r e s in
  positionX e1 = positionX e /\
  direction s1 = direction s /\
  isPaused s1 = isPaused s /\
  pauseTimer s1 = pauseTimer s /\
  originalScale s1 = originalScale s /\
  bodyParts s1 = bodyParts s.
Proof.
  unfold evaluateCrouch, holdStandingHeight, handleCrouching,
    startCrouching, stopCrouching, maintainCrouchState, updatePart.
  destruct s as [d c ct p pt os oy bp], e as [x y z sc ch]; simpl.
  destruct c; simpl.
  - destruct (ct - 1 <=? 0)%Z; simpl; repeat split.
  - destruct (Qlt_bool (crouchRoll r) (crouchProbability cfg)); simpl;
      [|repeat split].
    destruct (crouchDuration cfg - 1 <=? 0)%Z; simpl; repeat split.
Qed.

(** The pause-or-move part leaves the pose untouched. *)
Lemma pauseOrMove_frame cfg r e s :
  let '(e2, s2) := pauseOrMove cfg r e s in
  scaleY e2 = scaleY e /\
  positionY e2 = positionY e /\
  children e2 = children e /\
  isCrouching s2 = isCrouching s /\
  crouchTimer s2 = crouchTimer s /\
  originalScale s2 = originalScale s /\
  bodyParts s2 = bodyParts s.
Proof.
  unfold pauseOrMove, moveHorizontally, maybeChangeDirection.
  destruct s as [d c ct p pt os oy bp], e as [x y z sc ch]; simpl.
  destruct p; simpl.
  - destruct (pt - 1 <=? 0)%Z; simpl; repeat split.
  - destruct (Qlt_bool (pauseRoll r) (pauseChance cfg)); simpl;
      [repeat split|].
    destruct (Qlt_bool (directionRoll r) (changeDirectionChance cfg)); simpl;
      split_ifs; simpl; repeat split.
Qed.

Ltac close_move :=
  repeat split; intros;
  repeat match goal with
         | H : _ \/ _ |- _ => destruct H
         end;
  first [reflexivity | lia | lra | exfalso; lra].

Lemma Qle_bool_false x y : Qle_bool x y = false -> y < x.
Proof.
  intros H. apply Qnot_le_lt. intros Hle.
  apply Qle_bool_iff in Hle. congruence.
Qed.

(** The move on its own: it keeps [positionX] in range, and a step
    that reaches a boundary stops on it and turns the enemy round. *)
Lemma moveHorizontally_bounds cfg e s :
  0 < moveSpeed cfg -> minX cfg <= maxX cfg ->
  inBounds cfg e -> validDirection s ->
  let '(e', s') := moveHorizontally cfg e s in
  inBounds cfg e' /\ validDirection s' /\
  (direction s = (-1)%Z -> positionX e - moveSpeed cfg <= minX cfg ->
     positionX e' = minX cfg /\ direction s' = 1%Z) /\
  (direction s = 1%Z -> maxX cfg <= positionX e + moveSpeed cfg ->
     positionX e' = maxX cfg /\ direction s' = (-1)%Z) /\
  (positionX e' == minX cfg \/ positionX e' == maxX cfg ->
     direction s' = (- direction s)%Z).
Proof.
  intros Hspeed Hrange [Hlo Hhi] Hdir.
  unfold moveHorizontally, inBounds, validDirection in *.
  destruct s as [d c ct p pt os oy bp], e as [x y z sc ch];
    cbn [direction positionX set_direction set_positionX] in *.
  destruct Hdir as [-> | ->]; cbn [Z.eqb Pos.eqb].
  - destruct (Qle_bool (maxX cfg) (x + moveSpeed cfg)) eqn:Hb;
      [apply Qle_bool_iff in Hb | apply Qle_bool_false in Hb];
      cbn [direction positionX set_direction set_positionX];
      close_move.
  - destruct (Qle_bool (x - moveSpeed cfg) (minX cfg)) eqn:Hb;
      [apply Qle_bool_iff in Hb | apply Qle_bool_false in Hb];
      cbn [direction positionX set_direction set_positionX];
      close_move.
Qed.

Lemma maybeChangeDirection_valid cfg roll s :
  validDirection s -> validDirection (maybeChangeDirection cfg roll s).
Proof.
  unfold validDirection, maybeChangeDirection.
  destruct (Qlt_bool roll (changeDirectionChance cfg));
    cbn [direction set_direction]; lia.
Qed.

(** The patrol part of a tick: bounds, direction, bounce. *)
Lemma pauseOrMove_bounds cfg r e s :
  0 < moveSpeed cfg -> minX cfg <= maxX cfg ->
  inBounds cfg e -> validDirection s ->
  let '(e', s') := pauseOrMove cfg r e s in
  inBounds cfg e' /\ validDirection s' /\
  (isPaused s = false ->
   Qlt_bool (pauseRoll r) (pauseChance cfg) = false ->
   let d := headingOf cfg r s in
   (d = (-1)%Z -> positionX e - moveSpeed cfg <= minX cfg ->
      positionX e' = minX cfg /\ direction s' = 1%Z) /\
   (d = 1%Z -> maxX cfg <= positionX e + moveSpeed cfg ->
      positionX e' = maxX cfg /\ direction s' = (-1)%Z) /\
   (positionX e' == minX cfg \/ positionX e' == maxX cfg ->
      direction s' = (- d)%Z)).
Proof.
  intros Hspeed Hrange Hin Hdir.
  unfold pauseOrMove, headingOf.
  destruct (isPaused s) eqn:Hp.
  - destruct (pauseTimer (set_pauseTimer (pauseTimer s - 1) s) <=? 0)%Z;
      (split; [exact Hin|]); (split; [exact Hdir|]); discriminate.
  - destruct (Qlt_bool (pauseRoll r) (pauseChance cfg)) eqn:Hroll.
    + split; [exact Hin|]. split; [exact Hdir|]. discriminate.
    + pose proof (moveHorizontally_bounds cfg e
                    (maybeChangeDirection cfg (directionRoll r) s)
                    Hspeed Hrange Hin
                    (maybeChangeDirection_valid cfg _ s Hdir)) as Hmove.
      destruct (moveHorizontally cfg e _) as [e' s'].
      destruct Hmove as (Hin' & Hdir' & Hbounce).
      split; [exact Hin'|]. split; [exact Hdir'|].
      intros _ _. exact Hbounce.
Qed.

(** C3: a tick that starts with [positionX] inside [[minX, maxX]] ends
    with it inside.  On a tick that moves, a step that reaches or
    passes a boundary puts [positionX] on that boundary and turns the
    enemy round, and whenever the new [positionX] is a boundary the new
    direction is the opposite of the one the move followed, whether or
    not the direction roll had just flipped it. *)
Theorem positionX_bounded_and_bounces cfg r e s :
  0 < moveSpeed cfg -> minX cfg <= maxX cfg ->
  inBounds cfg e -> validDirection s ->
  exists e' s',
    updateEnemyMovement cfg r (Some e) s = (Some e', s') /\
    inBounds cfg e' /\ validDirection s' /\
    (isPaused s = false ->
     Qlt_bool (pauseRoll r) (pauseChance cfg) = false ->
     let d := headingOf cfg r s in
     (d = (-1)%Z -> positionX e - moveSpeed cfg <= minX cfg ->
        positionX e' = minX cfg /\ direction s' = 1%Z) /\
     (d = 1%Z -> maxX cfg <= positionX e + moveSpeed cfg ->
        positionX e' = maxX cfg /\ direction s' = (-1)%Z) /\
     (positionX e' == minX cfg \/ positionX e' == maxX cfg ->
        direction s' = (- d)%Z)).
Proof.
  intros Hspeed Hrange Hin Hdir.
  rewrite update_phases.
  pose proof (evaluateCrouch_frame cfg r e s) as Hframe.
  destruct (evaluateCrouch cfg r e s) as [e1 s1].
  destruct Hframe as (Hx & Hd & Hp & _).
  assert (Hin1 : inBounds cfg e1) by (unfold inBounds; rewrite Hx; exact Hin).
  assert (Hdir1 : validDirection s1)
    by (unfold validDirection; rewrite Hd; exact Hdir).
  pose proof (pauseOrMove_bounds cfg r e1 s1 Hspeed Hrange Hin1 Hdir1) as Hmove.
  destruct (pauseOrMove cfg r e1 s1) as [e2 s2].
  exists e2, s2. split; [reflexivity|].
  destruct Hmove as (Hin2 & Hdir2 & Hbounce).
  split; [exact Hin2|]. split; [exact Hdir2|].
  rewrite Hp, Hx in Hbounce.
  replace (headingOf cfg r s1) with (headingOf cfg r s) in Hbounce.
  - exact Hbounce.
  - unfold headingOf, maybeChangeDirection.
    destruct (Qlt_bool (directionRoll r) (changeDirectionChance cfg));
      cbn [direction set_direction]; rewrite Hd; reflexivity.
Qed.

Lemma positionX_bounded_and_bounces_witness :
  exists e' s',
    updateEnemyMovement enemyConfig turnRound (Some (enemyAt (101 # 10) []))
      (set_direction 1%Z enemyState0) = (Some e', s') /\
    inBounds enemyConfig e' /\
    positionX e' = 10 /\ direction s' = 1%Z.
Proof.
  destruct (positionX_bounded_and_bounces enemyConfig turnRound
              (enemyAt (101 # 10) []) (set_direction 1%Z enemyState0))
    as (e' & s' & Hu & Hin & _ & Hbounce).
  - reflexivity.
  - vm_compute. discriminate.
  - split; vm_compute; discriminate.
  - left. reflexivity.
  - exists e', s'. split; [exact Hu|]. split; [exact Hin|].
    destruct (Hbounce eq_refl eq_refl) as (Hleft & _ & _).
    apply Hleft.
    + reflexivity.
    + vm_compute. discriminate.
Defined.

(** What the crouch evaluation does to the crouch flag and timer. *)
Lemma evaluateCrouch_cases cfg r e s :
  let '(e1, s1) := evaluateCrouch cfg r e s in
  (isCrouching s = false ->
   Qlt_bool (crouchRoll r) (crouchProbability cfg) = true ->
   (1 < crouchDuration cfg)%Z ->
   isCrouching s1 = true /\ crouchTimer s1 = (crouchDuration cfg - 1)%Z) /\
  (isCrouching s = false ->
   Qlt_bool (crouchRoll r) (crouchProbability cfg) = false ->
   isCrouching s1 = false /\ crouchTimer s1 = crouchTimer s) /\
  (isCrouching s = true -> (1 < crouchTimer s)%Z ->
   isCrouching s1 = true /\ crouchTimer s1 = (crouchTimer s - 1)%Z) /\
  (isCrouching s = true -> (crouchTimer s <= 1)%Z ->
   isCrouching s1 = false /\ crouchTimer s1 = (crouchTimer s - 1)%Z).
Proof.
  unfold evaluateCrouch, holdStandingHeight, handleCrouching,
    startCrouching, stopCrouching, maintainCrouchState, updatePart.
  destruct s as [d c ct p pt os oy bp], e as [x y z sc ch]; simpl.
  destruct c; simpl.
  - destruct (Z.leb_spec (ct - 1) 0); simpl; repeat split;
      intros; try discriminate; try lia.
  - destruct (Qlt_bool (crouchRoll r) (crouchProbability cfg)); simpl.
    + destruct (Z.leb_spec (crouchDuration cfg - 1) 0); simpl; repeat split;
        intros; try discriminate; try lia.
    + repeat split; intros; discriminate.
Qed.

(** C4: on a tick entered with [isPaused] set, [positionX] and
    [direction] keep their values, [pauseTimer] goes down by one, and
    [isPaused] is cleared exactly when the timer is then at zero or
    below (at zero, when it was positive).  The pose and the crouch
    fields of the result are those the crouch evaluation produced
    before the pause test: on such a tick a crouch can start, go on or
    stop. *)
Theorem paused_tick_counts_down_after_crouch cfg r e s :
  isPaused s = true ->
  let '(e1, s1) := evaluateCrouch cfg r e s in
  exists s',
    updateEnemyMovement cfg r (Some e) s = (Some e1, s') /\
    positionX e1 = positionX e /\
    direction s' = direction s /\
    pauseTimer s' = (pauseTimer s - 1)%Z /\
    (isPaused s' = false <-> (pauseTimer s' <= 0)%Z) /\
    ((1 <= pauseTimer s)%Z ->
     (isPaused s' = false <-> pauseTimer s' = 0%Z)) /\
    isCrouching s' = isCrouching s1 /\
    crouchTimer s' = crouchTimer s1 /\
    bodyParts s' = bodyParts s1 /\
    (isCrouching s = false ->
     Qlt_bool (crouchRoll r) (crouchProbability cfg) = true ->
     (1 < crouchDuration cfg)%Z ->
     isCrouching s' = true /\ crouchTimer s' = (crouchDuration cfg - 1)%Z) /\
    (isCrouching s = true -> (1 < crouchTimer s)%Z ->
     isCrouching s' = true /\ crouchTimer s' = (crouchTimer s - 1)%Z) /\
    (isCrouching s = true -> (crouchTimer s <= 1)%Z ->
     isCrouching s' = false).
Proof.
  intros Hpaused.
  rewrite update_phases.
  pose proof (evaluateCrouch_frame cfg r e s) as Hframe.
  pose proof (evaluateCrouch_cases cfg r e s) as Hcases.
  destruct (evaluateCrouch cfg r e s) as [e1 s1].
  destruct Hframe as (Hx & Hd & Hp & Hpt & _).
  destruct Hcases as (Hstart & _ & Hgo & Hstop).
  rewrite Hpaused in Hp.
  unfold pauseOrMove. rewrite Hp.
  cbn [pauseTimer set_pauseTimer].
  rewrite Hpt.
  destruct (Z.leb_spec (pauseTimer s - 1) 0) as [Hz | Hz];
    (eexists; split; [reflexivity|]);
    cbn [direction pauseTimer isPaused isCrouching crouchTimer bodyParts
         set_isPaused set_pauseTimer];
    rewrite ?Hpt, ?Hp;
    repeat split; intros; auto; try lia; try discriminate.
  all: first [apply Hstart; assumption | apply Hgo; assumption
             | apply Hstop; assumption].
Qed.

Lemma paused_tick_counts_down_after_crouch_witness :
  isPaused (pausedFor 1) = true /\
  exists e' s',
    updateEnemyMovement enemyConfig crouchNow (Some (enemyAt 30 []))
      (pausedFor 1) = (Some e', s') /\
    positionX e' = 30 /\ pauseTimer s' = 0%Z /\ isPaused s' = false /\
    isCrouching s' = true /\ crouchTimer s' = 59%Z.
Proof.
  split; [reflexivity|].
  pose proof (paused_tick_counts_down_after_crouch enemyConfig crouchNow
                (enemyAt 30 []) (pausedFor 1) eq_refl) as H.
  destruct (evaluateCrouch enemyConfig crouchNow (enemyAt 30 [])
              (pausedFor 1)) as [e1 s1].
  destruct H as (s' & Hu & Hx & _ & Hpt & _ & Hzero & _ & _ & _ & Hstart & _).
  exists e1, s'. split; [exact Hu|]. split; [exact Hx|].
  split; [exact Hpt|].
  split.
  - apply Hzero; [vm_compute; discriminate | exact Hpt].
  - apply Hstart; reflexivity.
Defined.

(** A pause always starts with a positive timer when [pauseDuration]
    is positive, and ends the tick its timer reaches zero. *)
Lemma pauseTimerLive_update cfg r enemy s :
  (1 <= pauseDuration cfg)%Z -> pauseTimerLive s ->
  pauseTimerLive (snd (updateEnemyMovement cfg r enemy s)).
Proof.
  intros Hdur Hlive. destruct enemy as [e|]; [|exact Hlive].
  rewrite update_phases.
  pose proof (evaluateCrouch_frame cfg r e s) as Hframe.
  destruct (evaluateCrouch cfg r e s) as [e1 s1].
  destruct Hframe as (_ & _ & Hp & Hpt & _).
  unfold pauseTimerLive in *. rewrite <- Hp, <- Hpt in Hlive. clear Hp Hpt.
  unfold pauseOrMove, moveHorizontally, maybeChangeDirection.
  destruct s1 as [d c ct p pt os oy bp], e1 as [x y z sc ch];
    cbn [direction isPaused pauseTimer positionX set_pauseTimer set_isPaused
         set_direction set_positionX] in *.
  destruct p.
  - destruct (Z.leb_spec (pt - 1) 0); cbn; intros; [discriminate | lia].
  - destruct (Qlt_bool (pauseRoll r) (pauseChance cfg)); cbn; [auto|].
    split_ifs; cbn; intros; discriminate.
Qed.

(** *** Tracked meshes through a crouch *)

(** What the three writes do to one mesh. *)
Lemma recordOriginalY_base m : baseOffset (recordOriginalY m) = baseOffset m.
Proof.
  unfold recordOriginalY, baseOffset.
  destruct (userOriginalY m) as [o|] eqn:Ho; cbn [truthy].
  - destruct (Qeq_bool o 0) eqn:Hz; cbn [negb].
    + cbn [userOriginalY set_userOriginalY meshY truthy].
      destruct (negb (Qeq_bool (meshY m) 0)); reflexivity.
    + rewrite Ho. cbn [truthy]. rewrite Hz. reflexivity.
  - cbn [negb userOriginalY set_userOriginalY meshY truthy].
    destruct (negb (Qeq_bool (meshY m) 0)); reflexivity.
Qed.

Lemma recordOriginalY_hasBase q m :
  wouldHaveBase q m -> hasBase q (recordOriginalY m).
Proof.
  unfold wouldHaveBase, hasBase, recordOriginalY, baseOffset.
  destruct (userOriginalY m) as [o|] eqn:Ho; cbn [truthy].
  - destruct (Qeq_bool o 0) eqn:Hz; cbn [negb]; intros <-.
    + cbn [userOriginalY set_userOriginalY meshY]. split; reflexivity.
    + rewrite Ho. split; [reflexivity|].
      cbn [truthy]. rewrite Hz. discriminate.
  - cbn [negb userOriginalY set_userOriginalY meshY]. intros <-.
    split; reflexivity.
Qed.

Lemma recordOriginalY_keeps q m :
  hasBase q m -> hasBase q (recordOriginalY m).
Proof.
  intros [Ho Hz]. unfold recordOriginalY. rewrite Ho.
  destruct (truthy (Some q)) eqn:Ht; cbn [negb].
  - split; [exact Ho | rewrite Ht; discriminate].
  - unfold hasBase. cbn [userOriginalY set_userOriginalY meshY].
    rewrite (Hz eq_refl). split; [reflexivity | intros _; reflexivity].
Qed.

Lemma lowerMesh_keeps drop q m :
  hasBase q m -> hasBase q (lowerMesh drop m).
Proof.
  intros [Ho Hz]. unfold lowerMesh. rewrite Ho.
  destruct (truthy (Some q)) eqn:Ht.
  - split; [exact Ho | rewrite Ht; discriminate].
  - split; [exact Ho | intros _; exact (Hz eq_refl)].
Qed.

Lemma restoreMesh_onBase q m : hasBase q m -> onBase q (restoreMesh m).
Proof.
  intros [Ho Hz]. unfold restoreMesh, onBase, hasBase. rewrite Ho.
  cbn [userOriginalY set_meshY meshY]. repeat split; auto.
Qed.

Lemma restoreMesh_keeps q m : hasBase q m -> hasBase q (restoreMesh m).
Proof. intros H. exact (proj1 (restoreMesh_onBase q m H)). Qed.

Lemma restoreMesh_stays q m : onBase q m -> onBase q (restoreMesh m).
Proof. intros [H _]. now apply restoreMesh_onBase. Qed.

(** What a write through one slot does to the mesh behind another. *)
Lemma deref_alterPart f (ref' ref : option nat) (ch : list Mesh) :
  deref (alterPart f ref' ch) ref = deref ch ref \/
  (ref' = ref /\ deref (alterPart f ref' ch) ref = option_map f (deref ch ref)).
Proof.
  destruct ref as [j|]; [|left; reflexivity].
  destruct ref' as [i|]; [|left; reflexivity].
  cbn [deref alterPart].
  destruct (Nat.eq_dec i j) as [-> | Hne].
  - right. split; [reflexivity|].
    rewrite list_lookup_alter_eq. destruct (ch !! j); reflexivity.
  - left. now rewrite list_lookup_alter_ne.
Qed.

Lemma holds_alterPart (P : Q -> Mesh -> Prop) f ref' ch ref b :
  (forall q m, P q m -> P q (f m)) ->
  holds P ch ref b -> holds P (alterPart f ref' ch) ref b.
Proof.
  intros Hf. unfold holds.
  destruct (deref_alterPart f ref' ref ch) as [-> | [_ ->]]; [auto|].
  destruct (deref ch ref), b; cbn [option_map]; auto.
Qed.

Lemma holds_alterPart_same (P P' : Q -> Mesh -> Prop) f ch ref b :
  (forall q m, P q m -> P' q (f m)) ->
  holds P ch ref b -> holds P' (alterPart f ref ch) ref b.
Proof.
  intros Hf. unfold holds.
  destruct ref as [j|]; cbn [deref alterPart].
  - rewrite list_lookup_alter_eq.
    destruct (ch !! j), b; cbn; auto.
  - destruct b; auto.
Qed.

Lemma holds_would_have ch ref :
  holds wouldHaveBase ch ref (option_map baseOffset (deref ch ref)).
Proof.
  unfold holds, wouldHaveBase. destruct (deref ch ref); cbn; auto.
Qed.

Lemma holds_onBase_settled ch ref b :
  holds onBase ch ref b ->
  option_map baseOffset (deref ch ref) = option_map meshY (deref ch ref).
Proof.
  unfold holds, onBase, hasBase, baseOffset.
  destruct (deref ch ref) as [m|], b as [q|]; cbn [option_map]; try tauto.
  intros [[Ho Hz] Hy]. rewrite Ho, Hy.
  destruct (truthy (Some q)); reflexivity.
Qed.

Lemma holds_onBase_offset ch ref b :
  holds onBase ch ref b -> option_map meshY (deref ch ref) = b.
Proof.
  unfold holds, onBase.
  destruct (deref ch ref), b; cbn; try tauto.
  intros [_ ->]. reflexivity.
Qed.

(** Holding the crouch pose keeps every recorded base. *)
Lemma maintainCrouchState_keeps cfg e s ref b :
  holds hasBase (children e) ref b ->
  holds hasBase (children (maintainCrouchState cfg e s)) ref b.
Proof.
  intros H. unfold maintainCrouchState, updatePart.
  cbn [children set_children set_scaleY set_positionY].
  repeat apply holds_alterPart; auto using lowerMesh_keeps.
Qed.

(** The three records of [startCrouching] give each tracked mesh the
    base it would have had. *)
Lemma records_give_bases (ch : list Mesh) parts :
  let ch' :=
    alterPart recordOriginalY (weapon parts)
      (alterPart recordOriginalY (body parts)
         (alterPart recordOriginalY (head parts) ch)) in
  holds hasBase ch' (head parts) (option_map baseOffset (deref ch (head parts))) /\
  holds hasBase ch' (body parts) (option_map baseOffset (deref ch (body parts))) /\
  holds hasBase ch' (weapon parts)
    (option_map baseOffset (deref ch (weapon parts))).
Proof.
  assert (Hkeep : forall q m, wouldHaveBase q m ->
                              wouldHaveBase q (recordOriginalY m)).
  { unfold wouldHaveBase. intros q m <-. apply recordOriginalY_base. }
  cbv zeta. repeat split.
  - do 2 (apply holds_alterPart; [exact recordOriginalY_keeps|]).
    apply (holds_alterPart_same wouldHaveBase);
      [exact recordOriginalY_hasBase | apply holds_would_have].
  - apply holds_alterPart; [exact recordOriginalY_keeps|].
    apply (holds_alterPart_same wouldHaveBase);
      [exact recordOriginalY_hasBase|].
    apply holds_alterPart; [exact Hkeep | apply holds_would_have].
  - apply (holds_alterPart_same wouldHaveBase);
      [exact recordOriginalY_hasBase|].
    do 2 (apply holds_alterPart; [exact Hkeep|]).
    apply holds_would_have.
Qed.

(** The three restores of [stopCrouching] put each tracked mesh on its
    base. *)
Lemma restores_reach_bases (ch : list Mesh) parts h b w :
  holds hasBase ch (head parts) h ->
  holds hasBase ch (body parts) b ->
  holds hasBase ch (weapon parts) w ->
  let ch' :=
    alterPart restoreMesh (weapon parts)
      (alterPart restoreMesh (body parts)
         (alterPart restoreMesh (head parts) ch)) in
  holds onBase ch' (head parts) h /\
  holds onBase ch' (body parts) b /\
  holds onBase ch' (weapon parts) w.
Proof.
  intros Hh Hb Hw. cbv zeta. repeat split.
  - do 2 (apply holds_alterPart; [exact restoreMesh_stays|]).
    apply (holds_alterPart_same hasBase); [exact restoreMesh_onBase | exact Hh].
  - apply holds_alterPart; [exact restoreMesh_stays|].
    apply (holds_alterPart_same hasBase); [exact restoreMesh_onBase|].
    apply holds_alterPart; [exact restoreMesh_keeps | exact Hb].
  - apply (holds_alterPart_same hasBase); [exact restoreMesh_onBase|].
    do 2 (apply holds_alterPart; [exact restoreMesh_keeps|]).
    exact Hw.
Qed.

Lemma stopCrouching_restores cfg e s parts h b w :
  bodyParts s = parts ->
  holds hasBase (children e) (head parts) h ->
  holds hasBase (children e) (body parts) b ->
  holds hasBase (children e) (weapon parts) w ->
  restoredTo cfg (originalScale s) parts h b w
    (fst (stopCrouching cfg e s)) (snd (stopCrouching cfg e s)).
Proof.
  intros Hparts Hh Hb Hw.
  destruct (restores_reach_bases (children e) parts h b w Hh Hb Hw)
    as (Rh & Rb & Rw).
  unfold stopCrouching, restoredTo, updatePart.
  cbn [fst snd isCrouching set_isCrouching scaleY positionY children
       set_children set_scaleY set_positionY originalScale bodyParts].
  rewrite Hparts.
  repeat split; try reflexivity; assumption.
Qed.

(** One tick in the middle of a crouch: either the crouch goes on with
    one tick less, or it ends and the pose is back on its bases. *)
Lemma crouching_tick cfg r e s k scale parts h b w :
  crouchingFor k scale parts h b w e s ->
  let '(e1, s1) := evaluateCrouch cfg r e s in
  if (k - 1 <=? 0)%Z then restoredTo cfg scale parts h b w e1 s1
  else crouchingFor (k - 1) scale parts h b w e1 s1.
Proof.
  intros (Hc & Hk & Hs & Hp & Hh & Hb & Hw).
  unfold evaluateCrouch, holdStandingHeight, handleCrouching.
  do 3 (rewrite ?Hc; cbn [negb andb]).
  cbn [crouchTimer set_crouchTimer]. rewrite Hk.
  set (e1 := maintainCrouchState cfg e s).
  set (s1 := set_crouchTimer (k - 1) s).
  assert (Hh1 : holds hasBase (children e1) (head parts) h)
    by now apply maintainCrouchState_keeps.
  assert (Hb1 : holds hasBase (children e1) (body parts) b)
    by now apply maintainCrouchState_keeps.
  assert (Hw1 : holds hasBase (children e1) (weapon parts) w)
    by now apply maintainCrouchState_keeps.
  destruct (k - 1 <=? 0)%Z.
  - pose proof (stopCrouching_restores cfg e1 s1 parts h b w Hp Hh1 Hb1 Hw1)
      as Hstop.
    destruct (stopCrouching cfg e1 s1) as [e2 s2].
    cbn [fst snd] in Hstop.
    replace (originalScale s1) with scale in Hstop by (symmetry; exact Hs).
    exact Hstop.
  - unfold crouchingFor. subst s1.
    cbn [isCrouching crouchTimer originalScale bodyParts set_crouchTimer].
    repeat split; assumption.
Qed.

(** The tick that starts a crouch behaves like a tick on the state
    [startCrouching] makes, and that state is in the middle of a crouch
    whose bases are those of the parts as they stood. *)
Lemma starting_tick cfg r e s :
  isCrouching s = false ->
  Qlt_bool (crouchRoll r) (crouchProbability cfg) = true ->
  let '(e0, s0) :=
    startCrouching cfg (fst (holdStandingHeight cfg e s))
                       (snd (holdStandingHeight cfg e s)) in
  evaluateCrouch cfg r e s = evaluateCrouch cfg r e0 s0 /\
  crouchingFor (crouchDuration cfg) (originalScale s) (bodyParts s)
    (partBase e (head (bodyParts s))) (partBase e (body (bodyParts s)))
    (partBase e (weapon (bodyParts s))) e0 s0.
Proof.
  intros Hc Hroll.
  unfold evaluateCrouch, holdStandingHeight, handleCrouching.
  rewrite Hc. cbn [negb andb fst snd]. rewrite Hroll.
  unfold startCrouching.
  cbn [isCrouching set_isCrouching set_crouchTimer set_originalY bodyParts
       negb andb].
  rewrite ?Hc. cbn [negb andb].
  split; [reflexivity|].
  unfold crouchingFor.
  cbn [isCrouching crouchTimer originalScale bodyParts].
  repeat split.
  all: apply maintainCrouchState_keeps.
  all: unfold updatePart, partBase;
       cbn [children set_children set_positionY].
  all: apply (records_give_bases (children e) (bodyParts s)).
Qed.

Lemma runTicks_cons cfg r rs e s :
  runTicks cfg (r :: rs) e s =
  let '(e1, s1) := evaluateCrouch cfg r e s in
  let '(e2, s2) := pauseOrMove cfg r e1 s1 in
  runTicks cfg rs e2 s2.
Proof.
  cbn [runTicks]. rewrite update_phases.
  destruct (evaluateCrouch cfg r e s) as [e1 s1].
  destruct (pauseOrMove cfg r e1 s1) as [e2 s2]. reflexivity.
Qed.

(** A crouch with [k] ticks to go is over after exactly [k] ticks, and
    the pose is then on its recorded bases. *)
Lemma crouch_runs_out cfg scale parts h b w : forall rs e s k,
  crouchingFor k scale parts h b w e s -> (1 <= k)%Z ->
  length rs = Z.to_nat k ->
  let '(e', s') := runTicks cfg rs e s in
  restoredTo cfg scale parts h b w e' s'.
Proof.
  induction rs as [|r rs IH]; intros e s k Hk Hpos Hlen.
  - simpl in Hlen. lia.
  - rewrite runTicks_cons.
    pose proof (crouching_tick cfg r e s k scale parts h b w Hk) as Htick.
    destruct (evaluateCrouch cfg r e s) as [e1 s1].
    pose proof (pauseOrMove_frame cfg r e1 s1) as Hframe.
    destruct (pauseOrMove cfg r e1 s1) as [e2 s2].
    destruct Hframe as (Hsc & Hy & Hch & Hc & Hct & Hos & Hbp).
    destruct (Z.leb_spec (k - 1) 0) as [Hlast | Hmore].
    + assert (rs = []) as -> by (destruct rs; simpl in Hlen; [auto | lia]).
      cbn [runTicks].
      unfold restoredTo in *.
      rewrite Hsc, Hy, Hc, Hos, Hbp, Hch. exact Htick.
    + apply (IH e2 s2 (k - 1)%Z).
      * unfold crouchingFor in *. rewrite Hc, Hct, Hos, Hbp, Hch. exact Htick.
      * lia.
      * simpl in Hlen. lia.
Qed.

(** After [init] on an enemy none of whose meshes carries a recorded
    [originalY] yet, the pose is settled. *)
Lemma initEnemyMovement_settled cfg e s :
  Forall (fun c => userOriginalY c = None) (children e) ->
  exists e' s',
    initEnemyMovement cfg (Some e) s = (Some e', s') /\
    children e' = children e /\ settled e' s'.
Proof.
  intros Hfresh. unfold initEnemyMovement.
  eexists. eexists. split; [reflexivity|]. split; [reflexivity|].
  assert (Hpart : forall ref : option nat,
            option_map baseOffset (deref (children e) ref)
            = option_map meshY (deref (children e) ref)).
  { intros [i|]; [|reflexivity]. cbn [deref].
    destruct (children e !! i) as [m|] eqn:Hm; [|reflexivity].
    pose proof (Forall_lookup_1 _ _ _ _ Hfresh Hm) as Hnone.
    cbn in Hnone |- *. unfold baseOffset. rewrite Hnone. reflexivity. }
  unfold settled, partBase, partOffset.
  cbn [scaleY originalScale children set_positionX set_positionY
       set_bodyParts set_originalY set_originalScale].
  repeat split; apply Hpart.
Qed.

(** With no crouch in progress and none started, the crouch evaluation
    only pins the standing height. *)
Lemma evaluateCrouch_idle cfg r e s :
  isCrouching s = false ->
  Qlt_bool (crouchRoll r) (crouchProbability cfg) = false ->
  evaluateCrouch cfg r e s =
  (set_positionY (initialPositionY cfg) e,
   set_originalY (initialPositionY cfg) s).
Proof.
  destruct s as [d c ct p pt os oy bp]. cbn [isCrouching]. intros -> Hroll.
  unfold evaluateCrouch, holdStandingHeight, handleCrouching.
  cbn [isCrouching negb andb set_originalY]. rewrite Hroll. reflexivity.
Qed.

(** A tick that neither finds nor starts a crouch keeps a settled pose
    settled. *)
Lemma standing_tick_settled cfg r e s :
  isCrouching s = false ->
  Qlt_bool (crouchRoll r) (crouchProbability cfg) = false ->
  settled e s ->
  exists e' s',
    updateEnemyMovement cfg r (Some e) s = (Some e', s') /\
    isCrouching s' = false /\ settled e' s'.
Proof.
  intros Hc Hroll (Hs & Hh & Hb & Hw).
  rewrite update_phases, (evaluateCrouch_idle cfg r e s Hc Hroll).
  pose proof (pauseOrMove_frame cfg r
                (set_positionY (initialPositionY cfg) e)
                (set_originalY (initialPositionY cfg) s)) as Hframe.
  destruct (pauseOrMove cfg r _ _) as [e2 s2].
  destruct Hframe as (Hsc & _ & Hch & Hc2 & _ & Hos & Hbp).
  exists e2, s2. split; [reflexivity|].
  split; [rewrite Hc2; exact Hc|].
  unfold settled, partBase, partOffset in *.
  rewrite Hsc, Hch, Hos, Hbp.
  cbn [scaleY children originalScale bodyParts set_positionY set_originalY].
  repeat split; assumption.
Qed.

(** C5, as stated, fails: a head that was moved to 6 after its base 8
    had been recorded comes out of a full crouch at 8, not at 6. *)
Lemma crouch_cycle_moves_displaced_head :
  let e := enemyAt 30 [meshAt 6 (Some 8)] in
  let s := headTracked in
  let rs := crouchNow :: repeat quiet 59 in
  let '(e', s') := runTicks enemyConfig rs e s in
  isCrouching s = false /\ isCrouching s' = false /\
  partOffset e (head (bodyParts s)) = Some 6 /\
  partOffset e' (head (bodyParts s')) = Some 8 /\
  partOffset e' (head (bodyParts s')) <> partOffset e (head (bodyParts s)).
Proof.
  vm_compute. repeat split. discriminate.
Qed.

(** C5, amended: a crouch that starts on a standing pose and runs for
    [crouchDuration] ticks ends with the scale at the stored
    [originalScale], [positionY] at the standing height and every
    tracked part at its recorded base, which is the stored [originalY]
    when that is set and not zero and the offset the part had before
    the crouch otherwise.  The pose it ends on is settled, and when
    the pose it started from was settled these are the values from
    before the crouch: the round trip is exact. *)
Theorem crouch_cycle_restores_recorded_pose cfg r rs e s :
  isCrouching s = false ->
  Qlt_bool (crouchRoll r) (crouchProbability cfg) = true ->
  (1 <= crouchDuration cfg)%Z ->
  length (r :: rs) = Z.to_nat (crouchDuration cfg) ->
  let '(e', s') := runTicks cfg (r :: rs) e s in
  let parts := bodyParts s in
  isCrouching s' = false /\
  bodyParts s' = parts /\
  scaleY e' = originalScale s /\
  positionY e' = initialPositionY cfg /\
  partOffset e' (head parts) = partBase e (head parts) /\
  partOffset e' (body parts) = partBase e (body parts) /\
  partOffset e' (weapon parts) = partBase e (weapon parts) /\
  settled e' s' /\
  (settled e s ->
   scaleY e' = scaleY e /\
   partOffset e' (head parts) = partOffset e (head parts) /\
   partOffset e' (body parts) = partOffset e (body parts) /\
   partOffset e' (weapon parts) = partOffset e (weapon parts)).
Proof.
  intros Hc Hroll Hdur Hlen.
  pose proof (starting_tick cfg r e s Hc Hroll) as Hstart.
  destruct (startCrouching cfg _ _) as [e0 s0].
  destruct Hstart as (Heq & Hk).
  assert (Hrun : runTicks cfg (r :: rs) e s = runTicks cfg (r :: rs) e0 s0)
    by (rewrite !runTicks_cons, Heq; reflexivity).
  rewrite Hrun.
  pose proof (crouch_runs_out cfg _ _ _ _ _ (r :: rs) e0 s0 _ Hk Hdur Hlen)
    as Hout.
  destruct (runTicks cfg (r :: rs) e0 s0) as [e' s'].
  destruct Hout as (H1 & H2 & H3 & H4 & H5 & Hh' & Hb' & Hw').
  pose proof (holds_onBase_offset _ _ _ Hh') as H6.
  pose proof (holds_onBase_offset _ _ _ Hb') as H7.
  pose proof (holds_onBase_offset _ _ _ Hw') as H8.
  fold (partOffset e' (head (bodyParts s))) in H6.
  fold (partOffset e' (body (bodyParts s))) in H7.
  fold (partOffset e' (weapon (bodyParts s))) in H8.
  cbv zeta.
  repeat (split; [assumption|]).
  split.
  - unfold settled, partBase, partOffset. rewrite H2, H3, H5.
    repeat split; eapply holds_onBase_settled; eassumption.
  - intros (Hs & Hh & Hb & Hw).
    rewrite H2, H6, H7, H8, Hs, Hh, Hb, Hw. repeat split.
Qed.

Lemma crouch_cycle_restores_recorded_pose_witness :
  let e := enemyAt 30 fourParts in
  let s := snd (initEnemyMovement enemyConfig (Some e) enemyState0) in
  let '(e', s') := runTicks enemyConfig (crouchNow :: repeat quiet 59) e s in
  isCrouching s' = false /\ scaleY e' = 1 /\
  partOffset e' (head (bodyParts s)) = Some 8 /\
  partOffset e' (body (bodyParts s)) = Some 3 /\
  partOffset e' (weapon (bodyParts s)) = Some 3.
Proof.
  pose proof (crouch_cycle_restores_recorded_pose enemyConfig crouchNow
                (repeat quiet 59) (enemyAt 30 fourParts)
                (snd (initEnemyMovement enemyConfig
                        (Some (enemyAt 30 fourParts)) enemyState0))
                eq_refl eq_refl) as H.
  cbv zeta.
  destruct (runTicks enemyConfig (crouchNow :: repeat quiet 59)
              (enemyAt 30 fourParts)
              (snd (initEnemyMovement enemyConfig
                      (Some (enemyAt 30 fourParts)) enemyState0)))
    as [e' s'].
  destruct H as (Hc & _ & _ & _ & _ & _ & _ & _ & Hsettled).
  - vm_compute. discriminate.
  - reflexivity.
  - split; [exact Hc|].
    destruct Hsettled as (Hscale & Hhead & Hbody & Hweapon).
    + repeat split.
    + repeat split; assumption.
Defined.

(** C9, as stated, fails for the locomotion state: initialising the
    movement module in the middle of an encounter leaves the direction,
    the crouch and its timer, and the pause and its timer as they
    are, none of them at its initial value. *)
Lemma initEnemyMovement_keeps_stale_timers :
  let s' := snd (initEnemyMovement enemyConfig (Some (enemyAt 12 fourParts))
                   midEncounter) in
  (direction s' = 1%Z /\ direction enemyState0 = (-1)%Z) /\
  (isCrouching s' = true /\ isCrouching enemyState0 = false) /\
  (crouchTimer s' = 12%Z /\ crouchTimer enemyState0 = 0%Z) /\
  (isPaused s' = true /\ isPaused enemyState0 = false) /\
  (pauseTimer s' = 30%Z /\ pauseTimer enemyState0 = 0%Z).
Proof. vm_compute. repeat split. Qed.

(** C9, amended: the health reset restores [currentHealth] to
    [maxHealth], [totalDamageDealt] and [linesCompleted] to zero and
    [isDefeated] to false.  The movement module has no reset; its
    initialisation puts the enemy at [initialPosition] and at the
    standing height and stores the scale and that height, and leaves
    [direction], [isCrouching], [crouchTimer], [isPaused] and
    [pauseTimer] as they are. *)
Theorem reset_restores_health_not_locomotion :
  (forall s,
     let s' := EnemyDamage.resetEnemyDamageSystem s in
     EnemyDamage.currentHealth s' = EnemyDamage.maxHealth /\
     EnemyDamage.totalDamageDealt s' = 0%Z /\
     EnemyDamage.linesCompleted s' = 0%Z /\
     EnemyDamage.isDefeated s' = false) /\
  (forall cfg e s,
     exists e' s',
       initEnemyMovement cfg (Some e) s = (Some e', s') /\
       positionX e' = initialPosition cfg /\
       positionY e' = initialPositionY cfg /\
       scaleY e' = scaleY e /\
       originalScale s' = scaleY e /\
       originalY s' = initialPositionY cfg /\
       direction s' = direction s /\
       isCrouching s' = isCrouching s /\
       crouchTimer s' = crouchTimer s /\
       isPaused s' = isPaused s /\
       pauseTimer s' = pauseTimer s).
Proof.
  split.
  - intros s. repeat split.
  - intros cfg e s. unfold initEnemyMovement.
    eexists. eexists. split; [reflexivity|]. repeat split.
Qed.

End EnemyMovementFacts.

(** * Properties of the fire origin and the height gate *)

Module BulletOriginFacts.
Import BulletOrigin.
Local Open Scope Z_scope.

(** C6: without an enemy the call returns the cached origin and leaves
    the state alone.  With an enemy the origin it computes is returned
    and cached, so that a later call without an enemy returns that
    same origin, whatever else has changed. *)
Theorem origin_falls_back_to_cache cfg getWorldPosition movement s :
  updateBulletOriginPosition cfg getWorldPosition None movement s
    = (lastKnownPosition s, s) /\
  forall e,
    let '(p, s1) :=
      updateBulletOriginPosition cfg getWorldPosition (Some e) movement s in
    p = computeOrigin cfg getWorldPosition e movement /\
    lastKnownPosition s1 = p /\
    forall cfg' getWorldPosition' movement',
      updateBulletOriginPosition cfg' getWorldPosition' None movement' s1
        = (p, s1).
Proof.
  split; [reflexivity|].
  intros e. unfold updateBulletOriginPosition.
  destruct (originMarker s); cbn; repeat split.
Qed.

(** C2: a height is high exactly when it is at least [highThreshold].
    The first call is allowed and records class and time.  A call of
    the recorded class is allowed and refreshes the time.  A call of
    the other class is allowed exactly when [shotCooldown] has passed
    since the recorded time; allowed, it records class and time;
    refused, it leaves the state as it was. *)
Theorem canFireAtHeight_gate cfg now height s :
  let high := isHigh s height in
  let '(allowed, s') := canFireAtHeight cfg now height s in
  (high = true <-> (highThreshold s <= height)%Q) /\
  (lastShotHeight s = None ->
   allowed = true /\ lastShotHeight s' = Some high /\ lastShotTime s' = now) /\
  (lastShotHeight s = Some high ->
   allowed = true /\ lastShotHeight s' = Some high /\ lastShotTime s' = now) /\
  (lastShotHeight s = Some (negb high) ->
   (allowed = true <-> shotCooldown cfg <= now - lastShotTime s) /\
   (allowed = true ->
    lastShotHeight s' = Some high /\ lastShotTime s' = now) /\
   (allowed = false ->
    lastShotHeight s' = lastShotHeight s /\
    lastShotTime s' = lastShotTime s /\ s' = s)).
Proof.
  unfold canFireAtHeight, isHigh.
  destruct s as [om lk lh lt th].
  cbn [highThreshold lastShotHeight lastShotTime set_lastShotHeight
       set_lastShotTime originMarker lastKnownPosition].
  pose proof (Qle_bool_iff th height) as Hclass.
  destruct lh as [was|]; destruct (Qle_bool th height); try destruct was;
    cbn; try destruct (Z.leb_spec (shotCooldown cfg) (now - lt)); cbn;
    (split; [exact Hclass|]);
    repeat split; intros; try discriminate; try lia; auto.
Qed.

Lemma canFireAtHeight_gate_witness :
  lastShotHeight afterHighShot = Some (negb (isHigh afterHighShot 1%Q)) /\
  canFireAtHeight bulletOriginConfig 1500 1%Q afterHighShot
    = (false, afterHighShot) /\
  fst (canFireAtHeight bulletOriginConfig 2000 1%Q afterHighShot) = true.
Proof.
  split; [reflexivity|]. split.
  - pose proof (canFireAtHeight_gate bulletOriginConfig 1500 1%Q
                  afterHighShot) as H.
    cbv zeta in H.
    destruct (canFireAtHeight bulletOriginConfig 1500 1%Q afterHighShot)
      as [allowed s'].
    destruct H as (_ & _ & _ & Hother).
    destruct (Hother eq_refl) as (Hiff & _ & Hrefused).
    assert (Hno : allowed = false).
    { destruct allowed; [|reflexivity].
      apply proj1 in Hiff. specialize (Hiff eq_refl).
      vm_compute in Hiff. exfalso. apply Hiff. reflexivity. }
    destruct (Hrefused Hno) as (_ & _ & ->). rewrite Hno. reflexivity.
  - pose proof (canFireAtHeight_gate bulletOriginConfig 2000 1%Q
                  afterHighShot) as H.
    cbv zeta in H.
    destruct (canFireAtHeight bulletOriginConfig 2000 1%Q afterHighShot)
      as [allowed s'].
    destruct H as (_ & _ & _ & Hother).
    destruct (Hother eq_refl) as (Hiff & _ & _).
    apply Hiff. vm_compute. discriminate.
Defined.


End BulletOriginFacts.

(** * Health accounting *)

Module HealthAccountingFacts.
Import EnemyDamage HealthAccounting EnemyDamageFacts.
Local Open Scope Z_scope.

Lemma drainedBy_reset s : drainedBy 0 (resetEnemyDamageSystem s).
Proof.
  unfold drainedBy, resetEnemyDamageSystem, maxHealth, damagePerLineBase.
  cbn. repeat split; try lia; try discriminate.
Qed.

Lemma drainedBy_step k s c :
  drainedBy k s -> isReset c = false ->
  drainedBy (k + (if isSuccess c then 1 else 0)) (step s c).
Proof.
  intros (Hk & Hh & Ht & Hl & Hd) Hc.
  destruct c as [container ok | d | |]; cbn [isReset] in Hc;
    try discriminate; cbn [step isSuccess].
  - destruct (isDefeated s) eqn:Hdef.
    + rewrite applyDamage_skipped by auto. cbn [snd].
      assert (35 <= k) by (apply Hd; reflexivity).
      unfold drainedBy, maxHealth, damagePerLineBase in *.
      rewrite Hdef. destruct ok; repeat split; try lia; auto.
    + destruct ok.
      * assert (Hlt : k < 35).
        { destruct (Z.lt_ge_cases k 35) as [|Hge]; [assumption|].
          apply Hd in Hge. discriminate. }
        rewrite applyDamage_accepted by assumption.
        unfold drainedBy, maxHealth, damagePerLineBase in *.
        cbn [currentHealth totalDamageDealt linesCompleted isDefeated].
        rewrite Hh, Ht.
        destruct (Z.leb_spec 35 (linesCompleted s + 1));
          rewrite Z.leb_le; repeat split; try lia.
      * rewrite applyDamage_skipped by auto. cbn [snd].
        replace (k + 0) with k by lia.
        unfold drainedBy. rewrite Hdef. repeat split; auto; apply Hd.
  - replace (k + 0) with k by lia.
    unfold setCurrentTrack.
    destruct d as [[[[|l ls]|]]|]; unfold drainedBy;
      cbn [currentHealth totalDamageDealt linesCompleted isDefeated
           set_linesCompleted set_lineCount];
      repeat split; try apply Hd; auto; lia.
Qed.

Lemma drainedBy_run cs : forall k s,
  drainedBy k s -> resetFree cs = true ->
  drainedBy (k + successes cs) (run s cs).
Proof.
  unfold run, resetFree.
  induction cs as [|c cs IH]; intros k s Hs Hcs; cbn [fold_left successes].
  - replace (k + 0) with k by lia. exact Hs.
  - cbn [forallb] in Hcs. apply andb_true_iff in Hcs.
    destruct Hcs as [Hc Hcs]. apply negb_true_iff in Hc.
    replace (k + ((if isSuccess c then 1 else 0) + successes cs))
      with (k + (if isSuccess c then 1 else 0) + successes cs) by lia.
    apply IH; [|exact Hcs]. now apply drainedBy_step.
Qed.

(** X1: after a refill the health depends only on how many lines were
    reported successful since: it is [maxHealth - 29 k], floored at
    zero, whatever tracks were set in between.  The damage total is
    [29] per line up to the thirty-fifth, and the enemy is defeated
    exactly from the thirty-fifth line on. *)
Theorem health_after_refill s cs :
  resetFree cs = true ->
  let k := successes cs in
  let s' := run (resetEnemyDamageSystem s) cs in
  currentHealth s' = Z.max 0 (maxHealth - damagePerLineBase * k) /\
  totalDamageDealt s' = damagePerLineBase * Z.min k 35 /\
  (isDefeated s' = true <-> 35 <= k).
Proof.
  intros Hcs. cbv zeta.
  destruct (drainedBy_run cs 0 (resetEnemyDamageSystem s)
              (drainedBy_reset s) Hcs) as (_ & Hh & Ht & _ & Hd).
  cbn [Z.add] in *. auto.
Qed.

Lemma health_after_refill_witness :
  let cs := [CallApplyDamage true true; CallSetCurrentTrack (trackOfLines 2);
             CallApplyDamage true false; CallApplyDamage true true] in
  resetFree cs = true /\
  currentHealth (run (resetEnemyDamageSystem enemyState0) cs) = 942.
Proof.
  split; [reflexivity|].
  exact (proj1 (health_after_refill enemyState0
                  [CallApplyDamage true true;
                   CallSetCurrentTrack (trackOfLines 2);
                   CallApplyDamage true false; CallApplyDamage true true]
                  eq_refl)).
Defined.

Lemma paced_step s c : healthy s -> paced s -> paced (step s c).
Proof.
  intros [Hr Hz] Hp. unfold paced, maxHealth, damagePerLineBase in *.
  destruct c as [container ok | d | |]; cbn [step].
  - destruct (isDefeated s) eqn:Hd.
    + rewrite applyDamage_skipped by auto. exact Hp.
    + destruct ok; [|rewrite applyDamage_skipped by auto; exact Hp].
      rewrite applyDamage_accepted by assumption.
      cbn [currentHealth linesCompleted]. unfold damagePerLineBase.
      assert (currentHealth s <> 0) by (intros H0; apply Hz in H0; congruence).
      destruct (Z.leb_spec 35 (linesCompleted s + 1)); lia.
  - unfold setCurrentTrack.
    destruct d as [[[[|l ls]|]]|]; auto.
    cbn [lyrics currentHealth linesCompleted set_linesCompleted
         set_lineCount]. lia.
  - right. cbn. unfold maxHealth. lia.
  - right. cbn. unfold maxHealth. lia.
Qed.

Lemma reachable_paced s : reachable s -> paced s.
Proof.
  induction 1 as [|s c Hs IH].
  - right. cbn. unfold maxHealth, damagePerLineBase. lia.
  - apply paced_step; [now apply reachable_healthy | exact IH].
Qed.

(** X2: in a reachable state every accepted line deals exactly the
    base damage: the final-line rule never raises it, because by the
    thirty-fifth line at most 14 health is left.  The record returned
    reports the new state, and a line reported as final always
    defeats the enemy. *)
Theorem accepted_line_deals_base_damage s :
  reachable s -> isDefeated s = false ->
  exists info s',
    applyDamage true true s = (Returned info, s') /\
    damage info = damagePerLineBase /\
    currentHealth s' = Z.max 0 (currentHealth s - damagePerLineBase) /\
    totalDamageDealt s' = totalDamageDealt s + damagePerLineBase /\
    linesCompleted s' = linesCompleted s + 1 /\
    remainingHealth info = Some (currentHealth s') /\
    infoIsDefeated info = Some (isDefeated s') /\
    (isFinalLine info = Some true -> isDefeated s' = true).
Proof.
  intros Hs Hd.
  destruct (reachable_healthy s Hs) as [Hr Hz].
  pose proof (reachable_paced s Hs) as Hp.
  assert (Hpos : currentHealth s <> 0)
    by (intros H0; apply Hz in H0; congruence).
  destruct Hp as [Hp | Hp]; [contradiction|].
  destruct s as [h t l c d]. cbn [isDefeated currentHealth linesCompleted] in *.
  subst d. unfold applyDamage, maxHealth, damagePerLineBase in *.
  cbn [isDefeated negb linesCompleted set_linesCompleted currentHealth
       totalDamageDealt].
  destruct (Z.leb_spec 35 (l + 1)) as [Hfinal | Hfinal].
  - replace (Z.max 29 h) with 29 by lia.
    cbn [set_currentHealth set_totalDamageDealt currentHealth
         totalDamageDealt linesCompleted lineCount isDefeated].
    replace (Z.max 0 (h - 29)) with 0 by lia.
    cbn [Z.leb Z.compare set_currentHealth set_isDefeated currentHealth
         isDefeated totalDamageDealt linesCompleted lineCount].
    eexists. eexists. split; [reflexivity|].
    cbn. repeat split.
  - cbn [set_currentHealth set_totalDamageDealt currentHealth
         totalDamageDealt linesCompleted lineCount isDefeated].
    destruct (Z.leb_spec (Z.max 0 (h - 29)) 0) as [Hdead | Halive].
    + replace (Z.max 0 (h - 29)) with 0 by lia.
      eexists. eexists. split; [reflexivity|].
      cbn. repeat split.
    + eexists. eexists. split; [reflexivity|].
      cbn [damage remainingHealth infoIsDefeated isFinalLine currentHealth
           totalDamageDealt linesCompleted isDefeated].
      repeat split. discriminate.
Qed.

Lemma accepted_line_deals_base_damage_witness :
  exists info s',
    applyDamage true true (step enemyState0 (CallApplyDamage true true))
      = (Returned info, s') /\
    damage info = 29 /\ currentHealth s' = 942.
Proof.
  destruct (accepted_line_deals_base_damage
              (step enemyState0 (CallApplyDamage true true)))
    as (info & s' & Hcall & Hdmg & Hh & _).
  - apply reachable_step, reachable_init.
  - reflexivity.
  - exists info, s'. split; [exact Hcall|]. split; [exact Hdmg|]. exact Hh.
Defined.

(** X3: an accepted line with no health-bar container throws, and by
    then the state has been written exactly as on a call that returns:
    the line is counted and the damage dealt. *)
Theorem applyDamage_throws_after_writing s :
  isDefeated s = false ->
  applyDamage false true s = (Thrown, snd (applyDamage true true s)) /\
  linesCompleted (snd (applyDamage false true s)) = linesCompleted s + 1 /\
  totalDamageDealt s + damagePerLineBase
    <= totalDamageDealt (snd (applyDamage false true s)).
Proof.
  intros Hd.
  assert (Hcall : applyDamage false true s
                  = (Thrown, snd (applyDamage true true s))).
  { unfold applyDamage. rewrite Hd. cbn [negb]. cbv zeta.
    destruct (currentHealth _ <=? 0); reflexivity. }
  split; [exact Hcall|].
  rewrite Hcall. cbn [snd].
  rewrite applyDamage_accepted by exact Hd.
  cbn [linesCompleted totalDamageDealt]. unfold damagePerLineBase.
  split; [reflexivity|].
  destruct (35 <=? linesCompleted s + 1); lia.
Qed.

Lemma applyDamage_throws_after_writing_witness :
  isDefeated enemyState0 = false /\
  fst (applyDamage false true enemyState0) = Thrown /\
  linesCompleted (snd (applyDamage false true enemyState0)) = 1.
Proof.
  split; [reflexivity|].
  destruct (applyDamage_throws_after_writing enemyState0 eq_refl)
    as (Hcall & Hl & _).
  split; [rewrite Hcall; reflexivity | exact Hl].
Defined.

(** [trim] leaves nothing exactly when every code unit is white
    space. *)
Lemma isEmpty_trimStart t :
  JSString.isEmpty (JSString.trimStart t) = negb (hasVisibleUnit t).
Proof.
  unfold hasVisibleUnit.
  induction t as [|c t IH]; [reflexivity|].
  cbn [JSString.trimStart existsb].
  destruct (JSString.isWhiteSpace c); [exact IH | reflexivity].
Qed.

Lemma hasVisibleUnit_trimStart t :
  hasVisibleUnit (JSString.trimStart t) = hasVisibleUnit t.
Proof.
  unfold hasVisibleUnit.
  induction t as [|c t IH]; [reflexivity|].
  cbn [JSString.trimStart]. destruct (JSString.isWhiteSpace c) eqn:Hc.
  - cbn [existsb]. rewrite Hc. exact IH.
  - reflexivity.
Qed.

Lemma hasVisibleUnit_rev t : hasVisibleUnit (rev t) = hasVisibleUnit t.
Proof.
  unfold hasVisibleUnit.
  induction t as [|c t IH]; [reflexivity|].
  cbn [rev existsb]. rewrite existsb_app, IH. cbn [existsb].
  rewrite orb_false_r. apply orb_comm.
Qed.

Lemma isEmpty_rev (t : JSString.t) :
  JSString.isEmpty (rev t) = JSString.isEmpty t.
Proof.
  destruct t as [|c t]; [reflexivity|].
  cbn [rev]. destruct (rev t); reflexivity.
Qed.

Lemma isEmpty_trim t :
  JSString.isEmpty (JSString.trim t) = negb (hasVisibleUnit t).
Proof.
  unfold JSString.trim, JSString.trimEnd.
  rewrite isEmpty_rev, isEmpty_trimStart, hasVisibleUnit_rev.
  now rewrite hasVisibleUnit_trimStart.
Qed.

Lemma hasTextContent_visible_unit l : hasTextContent l = hasVisibleLine l.
Proof.
  unfold hasTextContent, hasVisibleLine.
  destruct (text l) as [t|]; [|reflexivity].
  rewrite isEmpty_trim, negb_involutive.
  destruct t; reflexivity.
Qed.

Lemma countWhere_bounds p ls :
  0 <= countWhere p ls <= Z.of_nat (length ls).
Proof.
  unfold countWhere. pose proof (filter_length_le p ls). lia.
Qed.

(** X7: on a non-empty [lyrics] array the count [setCurrentTrack]
    stores is the number of entries whose text has a code unit that is
    not white space; it lies between zero and the number of entries;
    and setting the same track again changes nothing more. *)
Theorem setCurrentTrack_counts_visible_lines l ls s :
  let track := Some {| lyrics := Some (l :: ls) |} in
  let s' := setCurrentTrack track s in
  lineCount s' = countWhere hasVisibleLine (l :: ls) /\
  0 <= lineCount s' <= Z.of_nat (length (l :: ls)) /\
  setCurrentTrack track s' = s'.
Proof.
  cbv zeta. unfold setCurrentTrack. cbn [lyrics].
  cbn [lineCount set_linesCompleted set_lineCount].
  rewrite countLines_filter, Z.add_0_l.
  rewrite (countWhere_ext _ _ _ hasTextContent_visible_unit).
  split; [reflexivity|]. split; [apply countWhere_bounds | reflexivity].
Qed.

End HealthAccountingFacts.

(** * Shot pacing and the fire origin *)

Module ShotPacingFacts.
Import BulletOrigin ShotPacing.
Local Open Scope Z_scope.

(** One request: the gate keeps the threshold, remembers the shot it
    allows, and allows a change of class only after the cooldown. *)
Lemma canFireAtHeight_step cfg now height s :
  let '(allowed, s') := canFireAtHeight cfg now height s in
  highThreshold s' = highThreshold s /\
  (allowed = true ->
   lastShot s' = Some (now, isHigh s height) /\
   pacedFrom cfg (lastShot s) [(now, isHigh s height)]) /\
  (allowed = false -> s' = s).
Proof.
  unfold canFireAtHeight, isHigh, lastShot.
  destruct s as [om lk lh lt th].
  cbn [highThreshold lastShotHeight lastShotTime set_lastShotHeight
       set_lastShotTime].
  destruct lh as [was|]; cbn [option_map pacedFrom].
  - destruct (Bool.eqb (Qle_bool th height) was) eqn:Hsame.
    + apply Bool.eqb_prop in Hsame. subst was.
      cbn. repeat split; try discriminate. intros Hne; now elim Hne.
    + destruct (Z.leb_spec (shotCooldown cfg) (now - lt)); cbn;
        repeat split; try discriminate; auto.
  - cbn. repeat split; discriminate.
Qed.

(** X8: however requests arrive, the shots [canFireAtHeight] allows
    never change between high and low sooner than [shotCooldown] after
    the shot before, the one remembered from before the run
    included. *)
Theorem allowed_shots_respect_cooldown cfg reqs : forall s,
  pacedFrom cfg (lastShot s) (fst (fireLog cfg reqs s)).
Proof.
  induction reqs as [|[now height] reqs IH]; intros s; cbn [fireLog].
  - exact I.
  - pose proof (canFireAtHeight_step cfg now height s) as Hstep.
    destruct (canFireAtHeight cfg now height s) as [allowed s1].
    specialize (IH s1).
    destruct (fireLog cfg reqs s1) as [shots s2]. cbn [fst] in *.
    destruct Hstep as (_ & Hyes & Hno).
    destruct allowed.
    + destruct (Hyes eq_refl) as [Hlast Hpaced].
      cbn [app pacedFrom] in *. split; [exact (proj1 Hpaced)|].
      rewrite <- Hlast. exact IH.
    + rewrite (Hno eq_refl) in IH. exact IH.
Qed.

(** X9: a shot of the remembered class is always allowed and restarts
    the cooldown: a shot of the other class is then allowed exactly
    when [shotCooldown] has passed since that shot, however long ago
    the class last changed. *)
Theorem same_class_shot_restarts_cooldown cfg t1 h1 t2 h2 s high :
  lastShotHeight s = Some high ->
  isHigh s h1 = high -> isHigh s h2 = negb high ->
  let '(allowed1, s1) := canFireAtHeight cfg t1 h1 s in
  let '(allowed2, s2) := canFireAtHeight cfg t2 h2 s1 in
  allowed1 = true /\ (allowed2 = true <-> shotCooldown cfg <= t2 - t1).
Proof.
  unfold canFireAtHeight, isHigh.
  destruct s as [om lk lh lt th].
  cbn [highThreshold lastShotHeight lastShotTime set_lastShotHeight
       set_lastShotTime].
  intros -> H1 H2. rewrite H1, Bool.eqb_reflx.
  cbn [highThreshold lastShotHeight lastShotTime set_lastShotTime].
  rewrite H2.
  destruct high; cbn [negb Bool.eqb];
    destruct (Z.leb_spec (shotCooldown cfg) (t2 - t1)); cbn;
    (split; [reflexivity|]); split; intros; try discriminate; try lia; auto.
Qed.

Lemma same_class_shot_restarts_cooldown_witness :
  lastShotHeight afterHighShot = Some true /\
  fst (canFireAtHeight bulletOriginConfig 2500 1%Q
         (snd (canFireAtHeight bulletOriginConfig 1900 5%Q afterHighShot)))
  = false.
Proof.
  split; [reflexivity|].
  pose proof (same_class_shot_restarts_cooldown bulletOriginConfig
                1900 5%Q 2500 1%Q afterHighShot true
                eq_refl eq_refl eq_refl) as H.
  destruct (canFireAtHeight bulletOriginConfig 1900 5%Q afterHighShot)
    as [allowed1 s1].
  cbn [snd].
  destruct (canFireAtHeight bulletOriginConfig 2500 1%Q s1)
    as [allowed2 s2].
  destruct H as [_ [Hiff _]]. cbn [fst].
  destruct allowed2; [|reflexivity].
  specialize (Hiff eq_refl). vm_compute in Hiff.
  exfalso. apply Hiff. reflexivity.
Defined.

(** X10: once a weapon mesh is tracked, the origin is read off that
    mesh alone: its x and y come from the weapon's world position and
    the crouch flag, its z from the enemy, and neither the configured
    offsets nor the enemy's own x and y have any effect. *)
Theorem origin_follows_tracked_weapon cfg cfg' getWorldPosition e e' ms ms' w :
  EnemyMovement.deref (EnemyMovement.children e)
    (EnemyMovement.weapon (EnemyMovement.bodyParts ms)) = Some w ->
  EnemyMovement.deref (EnemyMovement.children e')
    (EnemyMovement.weapon (EnemyMovement.bodyParts ms')) = Some w ->
  EnemyMovement.isCrouching ms = EnemyMovement.isCrouching ms' ->
  EnemyMovement.positionZ e = EnemyMovement.positionZ e' ->
  computeOrigin cfg getWorldPosition e (Some ms)
    = computeOrigin cfg' getWorldPosition e' (Some ms') /\
  vz (computeOrigin cfg getWorldPosition e (Some ms))
    = EnemyMovement.positionZ e.
Proof.
  intros Hw Hw' Hc Hz. unfold computeOrigin.
  rewrite Hw, Hw', <- Hc.
  destruct (EnemyMovement.isCrouching ms);
    unfold set_vx, set_vy, enemyPosition; cbn [vx vy vz]; rewrite Hz;
    split; reflexivity.
Qed.

Lemma origin_follows_tracked_weapon_witness :
  let e := EnemyMovement.enemyAt 30 EnemyMovement.fourParts in
  let e' := EnemyMovement.enemyAt 12 EnemyMovement.fourParts in
  computeOrigin bulletOriginConfig (worldAt e) e (Some weaponTracked)
  = computeOrigin otherOffsets (worldAt e) e' (Some weaponTracked).
Proof.
  cbv zeta.
  refine (proj1 (origin_follows_tracked_weapon bulletOriginConfig
                   otherOffsets
                   (worldAt (EnemyMovement.enemyAt 30 EnemyMovement.fourParts))
                   (EnemyMovement.enemyAt 30 EnemyMovement.fourParts)
                   (EnemyMovement.enemyAt 12 EnemyMovement.fourParts)
                   weaponTracked weaponTracked _ _ _ _ _));
    reflexivity.
Defined.

End ShotPacingFacts.

(** * Ticks, pauses and part selection *)

Module PartSelectionFacts.
Import EnemyMovement PartSelection EnemyMovementFacts.
Local Open Scope Q_scope.

(** What the crouch evaluation leaves in [positionY]. *)
Lemma evaluateCrouch_height cfg r e s :
  let '(e1, s1) := evaluateCrouch cfg r e s in
  positionY e1 =
    if isCrouching s1 then initialPositionY cfg + crouchPositionY cfg
    else initialPositionY cfg.
Proof.
  unfold evaluateCrouch, holdStandingHeight, handleCrouching,
    startCrouching, stopCrouching, maintainCrouchState, updatePart.
  destruct s as [d c ct p pt os oy bp], e as [x y z sc ch]; simpl.
  destruct c; simpl.
  - destruct (ct - 1 <=? 0)%Z; reflexivity.
  - destruct (Qlt_bool (crouchRoll r) (crouchProbability cfg)); simpl;
      [|reflexivity].
    destruct (crouchDuration cfg - 1 <=? 0)%Z; reflexivity.
Qed.

(** X11: every tick on an enemy ends with [positionY] at the crouch
    height if the enemy is then crouching and at the standing height
    if it is not, whatever [positionY] was before the tick. *)
Theorem tick_pins_height cfg r e s :
  exists e' s',
    updateEnemyMovement cfg r (Some e) s = (Some e', s') /\
    positionY e' =
      if isCrouching s' then initialPositionY cfg + crouchPositionY cfg
      else initialPositionY cfg.
Proof.
  rewrite update_phases.
  pose proof (evaluateCrouch_height cfg r e s) as Hheight.
  destruct (evaluateCrouch cfg r e s) as [e1 s1].
  pose proof (pauseOrMove_frame cfg r e1 s1) as Hframe.
  destruct (pauseOrMove cfg r e1 s1) as [e2 s2].
  destruct Hframe as (_ & Hy & _ & Hc & _).
  exists e2, s2. split; [reflexivity|].
  rewrite Hy, Hc. exact Hheight.
Qed.

(** One tick of a pause. *)
Lemma paused_phases cfg r e s :
  isPaused s = true ->
  let '(e1, s1) := evaluateCrouch cfg r e s in
  let '(e2, s2) := pauseOrMove cfg r e1 s1 in
  positionX e2 = positionX e /\
  direction s2 = direction s /\
  pauseTimer s2 = (pauseTimer s - 1)%Z /\
  isPaused s2 = negb (pauseTimer s - 1 <=? 0)%Z.
Proof.
  intros Hp.
  pose proof (evaluateCrouch_frame cfg r e s) as Hframe.
  destruct (evaluateCrouch cfg r e s) as [e1 s1].
  destruct Hframe as (Hx & Hd & Hp1 & Hpt & _).
  rewrite Hp in Hp1.
  unfold pauseOrMove. rewrite Hp1.
  cbn [pauseTimer set_pauseTimer]. rewrite Hpt.
  destruct (pauseTimer s - 1 <=? 0)%Z;
    cbn [direction pauseTimer isPaused set_isPaused set_pauseTimer negb];
    rewrite ?Hpt, ?Hp1; auto.
Qed.

(** X12: a pause lasts as many ticks as its timer shows.  Through
    those ticks [positionX] and [direction] do not change, the timer
    goes down by one a tick, and [isPaused] is cleared by the tick
    that brings it to zero, not before. *)
Theorem pause_lasts_its_timer cfg : forall rs e s,
  isPaused s = true -> (1 <= pauseTimer s)%Z ->
  (Z.of_nat (length rs) <= pauseTimer s)%Z ->
  let '(e', s') := runTicks cfg rs e s in
  positionX e' = positionX e /\
  direction s' = direction s /\
  pauseTimer s' = (pauseTimer s - Z.of_nat (length rs))%Z /\
  (isPaused s' = true <-> (Z.of_nat (length rs) < pauseTimer s)%Z).
Proof.
  induction rs as [|r rs IH]; intros e s Hp Hlive Hlen.
  - cbn [runTicks length]. repeat split; intros; try lia. exact Hp.
  - rewrite runTicks_cons.
    pose proof (paused_phases cfg r e s Hp) as Hstep.
    destruct (evaluateCrouch cfg r e s) as [e1 s1].
    destruct (pauseOrMove cfg r e1 s1) as [e2 s2].
    destruct Hstep as (Hx & Hd & Hpt & Hp2).
    cbn [length] in *.
    destruct (Z.leb_spec (pauseTimer s - 1) 0) as [Hlast | Hmore];
      cbn [negb] in Hp2.
    + assert (rs = []) as -> by (destruct rs; [reflexivity | cbn in Hlen; lia]).
      cbn [runTicks length]. rewrite Hx, Hd, Hpt, Hp2.
      repeat split; try lia; intros; try discriminate; lia.
    + specialize (IH e2 s2 Hp2). rewrite Hpt in IH.
      destruct (runTicks cfg rs e2 s2) as [e' s'].
      destruct IH as (Hx' & Hd' & Hpt' & Hp'); [lia | lia |].
      rewrite Hx', Hd', Hpt', Hp', Hx, Hd.
      repeat split; intros; lia.
Qed.

Lemma pause_lasts_its_timer_witness :
  let '(e', s') :=
    runTicks enemyConfig (repeat turnRound 59) (enemyAt 30 []) (pausedFor 60) in
  positionX e' = 30 /\ isPaused s' = true /\ pauseTimer s' = 1%Z.
Proof.
  pose proof (pause_lasts_its_timer enemyConfig (repeat turnRound 59)
                (enemyAt 30 []) (pausedFor 60) eq_refl) as H.
  destruct (runTicks enemyConfig (repeat turnRound 59) (enemyAt 30 [])
              (pausedFor 60)) as [e' s'].
  destruct H as (Hx & _ & Hpt & Hp).
  - vm_compute. discriminate.
  - vm_compute. discriminate.
  - split; [exact Hx|]. split; [|exact Hpt].
    apply Hp. vm_compute. reflexivity.
Defined.


Lemma pauseOrMove_step_size cfg r e s :
  0 <= moveSpeed cfg -> inBounds cfg e ->
  let '(e', s') := pauseOrMove cfg r e s in
  positionX e - moveSpeed cfg <= positionX e' /\
  positionX e' <= positionX e + moveSpeed cfg.
Proof.
  intros Hspeed [Hlo Hhi].
  unfold pauseOrMove, moveHorizontally, maybeChangeDirection.
  destruct s as [d c ct p pt os oy bp], e as [x y z sc ch];
    cbn [direction isPaused pauseTimer positionX set_pauseTimer set_isPaused
         set_direction set_positionX] in *.
  destruct p.
  - destruct (pt - 1 <=? 0)%Z; cbn [positionX]; lra.
  - destruct (Qlt_bool (pauseRoll r) (pauseChance cfg)); [cbn [positionX]; lra|].
    destruct (Qlt_bool (directionRoll r) (changeDirectionChance cfg));
      cbn [direction];
      match goal with
      | |- context [(?a =? -1)%Z] => destruct (a =? -1)%Z
      end;
      match goal with
      | |- context [Qle_bool ?a ?b] =>
          destruct (Qle_bool a b) eqn:Hb;
          [apply Qle_bool_iff in Hb | apply Qle_bool_false in Hb]
      end;
      cbn [positionX set_positionX] in *; lra.
Qed.

(** X13: a tick never carries the enemy further than [moveSpeed]: from
    a position inside the range, the new [positionX] is within one
    step of the old one (less when the boundary stops it, none when
    the tick pauses). *)
Theorem tick_moves_at_most_one_step cfg r e s :
  0 <= moveSpeed cfg -> inBounds cfg e ->
  exists e' s',
    updateEnemyMovement cfg r (Some e) s = (Some e', s') /\
    positionX e - moveSpeed cfg <= positionX e' /\
    positionX e' <= positionX e + moveSpeed cfg.
Proof.
  intros Hspeed Hin.
  rewrite update_phases.
  pose proof (evaluateCrouch_frame cfg r e s) as Hframe.
  destruct (evaluateCrouch cfg r e s) as [e1 s1].
  destruct Hframe as (Hx & _).
  assert (Hin1 : inBounds cfg e1) by (unfold inBounds; rewrite Hx; exact Hin).
  pose proof (pauseOrMove_step_size cfg r e1 s1 Hspeed Hin1) as Hstep.
  destruct (pauseOrMove cfg r e1 s1) as [e2 s2].
  exists e2, s2. split; [reflexivity|].
  rewrite Hx in Hstep. exact Hstep.
Qed.

Lemma tick_moves_at_most_one_step_witness :
  exists e' s',
    updateEnemyMovement enemyConfig quiet (Some (enemyAt (101 # 10) []))
      enemyState0 = (Some e', s') /\
    (101 # 10) - (15 # 100) <= positionX e'.
Proof.
  destruct (tick_moves_at_most_one_step enemyConfig quiet
              (enemyAt (101 # 10) []) enemyState0)
    as (e' & s' & Hu & Hlo & _).
  - vm_compute. discriminate.
  - split; vm_compute; discriminate.
  - exists e', s'. split; [exact Hu | exact Hlo].
Defined.


Lemma Qlt_bool_spec x y : reflect (x < y) (Qlt_bool x y).
Proof.
  unfold Qlt_bool. destruct (Qle_bool y x) eqn:H; constructor.
  - apply Qle_bool_iff in H. lra.
  - now apply Qle_bool_false.
Qed.

(** X14: the four part classes of [init] exclude one another.  A child
    that is a group or has no geometry is in none, and a plain mesh is
    in none exactly when its height is zero: such a child is never
    tracked and never counted as a leg. *)
Theorem part_classes_are_disjoint c :
  let classes :=
    [isHeadCandidate c; isBodyCandidate c; isWeaponCandidate c;
     isLegCandidate c] in
  (length (List.filter id classes) <= 1)%nat /\
  (isPlainMesh c = false -> List.filter id classes = []) /\
  (isPlainMesh c = true -> (List.filter id classes = [] <-> meshY c == 0)).
Proof.
  cbv zeta.
  unfold isHeadCandidate, isBodyCandidate, isWeaponCandidate,
    isLegCandidate.
  destruct (isPlainMesh c); cbn [andb];
    [|cbn; repeat split; intros; try discriminate; lia].
  destruct (Qlt_bool_spec 5 (meshY c)) as [H5 | H5];
    destruct (Qlt_bool_spec 0 (meshY c)) as [H0 | H0];
    destruct (Qlt_bool_spec (meshY c) 0) as [Hn | Hn];
    destruct (farFromAxis c);
    cbn [negb andb List.filter id length];
    repeat split; intros; try discriminate; try lia; try lra.
Qed.


(** *** The sort of [init] and the element it puts first *)

Lemma hd_insertDescending key x l :
  hd_error (insertDescending key x l) = keepBest key (hd_error l) x.
Proof.
  destruct l as [|y rest]; [reflexivity|].
  cbn [insertDescending hd_error keepBest].
  destruct (Qlt_bool (key (snd y)) (key (snd x))); reflexivity.
Qed.

Lemma hd_sort_fold key l : forall acc,
  hd_error (fold_left (fun sorted x => insertDescending key x sorted) l acc)
  = fold_left (keepBest key) l (hd_error acc).
Proof.
  induction l as [|x l IH]; intros acc; cbn [fold_left]; [reflexivity|].
  rewrite IH, hd_insertDescending. reflexivity.
Qed.

Lemma fold_candidates p key ch : forall k best,
  fold_left (keepBest key)
    (List.filter (fun c => p (snd c)) (imap (fun i c => ((k + i)%nat, c)) ch))
    best
  = pickBest p key ch k best.
Proof.
  induction ch as [|c ch IH]; intros k best; [reflexivity|].
  rewrite imap_cons. cbn [List.filter snd pickBest].
  rewrite Nat.add_0_r.
  rewrite (imap_ext _ (fun i c => ((S k + i)%nat, c)))
    by (intros i x _; cbn; f_equal; lia).
  destruct (p c); cbn [fold_left]; apply IH.
Qed.

Lemma firstOr_sorted p key ch old :
  firstOr old (sortDescending key (candidates p ch))
  = match pickBest p key ch 0 None with
    | Some c => Some (fst c)
    | None => old
    end.
Proof.
  unfold sortDescending, candidates, indexedChildren.
  change (imap (fun i c => (i, c)) ch)
    with (imap (fun i (c : Mesh) => ((0 + i)%nat, c)) ch).
  pose proof (hd_sort_fold key
                (List.filter (fun c => p (snd c))
                   (imap (fun i (c : Mesh) => ((0 + i)%nat, c)) ch)) [])
    as Hhd.
  cbn [hd_error] in Hhd. rewrite fold_candidates in Hhd.
  rewrite <- Hhd.
  destruct (fold_left _ _ []); reflexivity.
Qed.

Lemma chosenUpTo_next p key full k c best :
  full !! k = Some c ->
  chosenUpTo p key full k best ->
  chosenUpTo p key full (S k)
    (if p c then keepBest key best (k, c) else best).
Proof.
  intros Hk Hbest.
  assert (Hat : forall j m', (j < S k)%nat -> full !! j = Some m' ->
                  (j < k)%nat \/ (j = k /\ m' = c)).
  { intros j m' Hj Hm'. destruct (Nat.eq_dec j k) as [-> | Hne].
    - right. split; [reflexivity | congruence].
    - left. lia. }
  destruct (p c) eqn:Hp.
  - destruct best as [[i m]|]; cbn [keepBest snd chosenUpTo] in *.
    + destruct Hbest as (Hi & Hm & Hpm & Hall).
      destruct (Qlt_bool_spec (key m) (key c)) as [Hlt | Hge].
      * split; [lia|]. split; [exact Hk|]. split; [exact Hp|].
        intros j m' Hj Hm' Hpm'.
        destruct (Hat j m' Hj Hm') as [Hjk | [-> ->]].
        -- destruct (Hall j m' Hjk Hm' Hpm') as [Hle _].
           split; [lra | intros _; lra].
        -- split; [lra | lia].
      * split; [lia|]. split; [exact Hm|]. split; [exact Hpm|].
        intros j m' Hj Hm' Hpm'.
        destruct (Hat j m' Hj Hm') as [Hjk | [-> ->]].
        -- exact (Hall j m' Hjk Hm' Hpm').
        -- split; [lra | lia].
    + split; [lia|]. split; [exact Hk|]. split; [exact Hp|].
      intros j m' Hj Hm' Hpm'.
      destruct (Hat j m' Hj Hm') as [Hjk | [-> ->]].
      * rewrite (Hbest j m' Hjk Hm') in Hpm'. discriminate.
      * split; [lra | lia].
  - destruct best as [[i m]|]; cbn [chosenUpTo] in *.
    + destruct Hbest as (Hi & Hm & Hpm & Hall).
      split; [lia|]. split; [exact Hm|]. split; [exact Hpm|].
      intros j m' Hj Hm' Hpm'.
      destruct (Hat j m' Hj Hm') as [Hjk | [-> ->]].
      * exact (Hall j m' Hjk Hm' Hpm').
      * congruence.
    + intros j m' Hj Hm'.
      destruct (Hat j m' Hj Hm') as [Hjk | [-> ->]].
      * exact (Hbest j m' Hjk Hm').
      * exact Hp.
Qed.

Lemma pickBest_chosen p key ch : forall seen best,
  chosenUpTo p key (seen ++ ch) (length seen) best ->
  chosenUpTo p key (seen ++ ch) (length (seen ++ ch))
    (pickBest p key ch (length seen) best).
Proof.
  induction ch as [|c ch IH]; intros seen best Hbest.
  - rewrite app_nil_r in *. exact Hbest.
  - cbn [pickBest].
    replace (seen ++ c :: ch) with ((seen ++ [c]) ++ ch) in *
      by (rewrite <- app_assoc; reflexivity).
    replace (S (length seen)) with (length (seen ++ [c]))
      by (rewrite length_app; cbn; lia).
    apply IH.
    rewrite length_app. cbn [length]. rewrite Nat.add_1_r.
    apply chosenUpTo_next; [|exact Hbest].
    rewrite <- app_assoc. cbn [app].
    rewrite lookup_app_r by lia.
    rewrite Nat.sub_diag. reflexivity.
Qed.

Lemma slot_after_sort p key ch old :
  slotAfterInit p key ch old
    (firstOr old (sortDescending key (candidates p ch))).
Proof.
  rewrite firstOr_sorted.
  pose proof (pickBest_chosen p key ch [] None) as Hchosen.
  cbn [app length] in Hchosen.
  assert (Hnone : chosenUpTo p key ch 0 None)
    by (intros j m Hj; lia).
  specialize (Hchosen Hnone).
  destruct (pickBest p key ch 0 None) as [[i m]|]; cbn [chosenUpTo fst] in *.
  - right. exists i. split; [reflexivity|].
    destruct Hchosen as (Hi & Hm & Hp & Hall).
    exists m. split; [exact Hm|]. split; [exact Hp|].
    intros j m' Hm' Hp'.
    apply (Hall j m'); [|exact Hm' | exact Hp'].
    now apply lookup_lt_Some in Hm'.
  - left. split; [reflexivity|].
    intros j m Hm. apply (Hchosen j m); [|exact Hm].
    now apply lookup_lt_Some in Hm.
Qed.

(** X15: [init] leaves the children as they are and fills each slot
    with the choice of its class: the head slot with the highest mesh
    above height five, the body slot with the highest mesh near the
    axis between zero and five, the weapon slot with the mesh that
    reaches furthest sideways among those away from the axis; among
    equals the earliest child wins.  A slot whose class is empty keeps
    the reference it had. *)
Theorem init_tracks_the_best_of_each_class cfg e s :
  exists e' s',
    initEnemyMovement cfg (Some e) s = (Some e', s') /\
    children e' = children e /\
    slotAfterInit isHeadCandidate meshY (children e)
      (head (bodyParts s)) (head (bodyParts s')) /\
    slotAfterInit isBodyCandidate meshY (children e)
      (body (bodyParts s)) (body (bodyParts s')) /\
    slotAfterInit isWeaponCandidate sideReach (children e)
      (weapon (bodyParts s)) (weapon (bodyParts s')).
Proof.
  unfold initEnemyMovement.
  eexists. eexists. split; [reflexivity|].
  cbn [children set_positionX set_positionY bodyParts set_bodyParts
       set_originalY set_originalScale head body weapon].
  split; [reflexivity|].
  repeat split; apply slot_after_sort.
Qed.

(** X16: running [init] again on the enemy it returned changes nothing
    but the leg list, to which the same leg references are appended a
    second time. *)
Theorem init_twice_doubles_the_legs cfg e s :
  exists e1 s1 e2 s2,
    initEnemyMovement cfg (Some e) s = (Some e1, s1) /\
    initEnemyMovement cfg (Some e1) s1 = (Some e2, s2) /\
    e2 = e1 /\
    head (bodyParts s2) = head (bodyParts s1) /\
    body (bodyParts s2) = body (bodyParts s1) /\
    weapon (bodyParts s2) = weapon (bodyParts s1) /\
    legs (bodyParts s1)
      = legs (bodyParts s) ++ map fst (candidates isLegCandidate (children e)) /\
    legs (bodyParts s2)
      = legs (bodyParts s1) ++ map fst (candidates isLegCandidate (children e)) /\
    set_bodyParts (bodyParts s1) s2 = s1.
Proof.
  unfold initEnemyMovement.
  do 4 eexists. split; [reflexivity|]. split; [reflexivity|].
  cbn [children set_positionX set_positionY bodyParts set_bodyParts
       set_originalY set_originalScale head body weapon legs scaleY
       positionY].
  assert (Hfirst : forall old l, firstOr (firstOr old l) l = firstOr old l)
    by (intros old [|c l]; reflexivity).
  rewrite !Hfirst.
  repeat split.
Qed.


(** *** The pose held during a crouch *)

Lemma lowerMesh_heldAt drop q m : hasBase q m -> heldAt drop q (lowerMesh drop m).
Proof.
  intros [Ho Hz]. unfold heldAt, lowerMesh, loweredBy. rewrite Ho.
  destruct (truthy (Some q)) eqn:Ht.
  - split; [|reflexivity]. split; [exact Ho | rewrite Ht; discriminate].
  - split; [|exact (Hz eq_refl)].
    split; [exact Ho | intros _; exact (Hz eq_refl)].
Qed.

Lemma holds_alterPart_other (P : Q -> Mesh -> Prop) f ref' ch ref b :
  ref' <> ref ->
  holds P ch ref b -> holds P (alterPart f ref' ch) ref b.
Proof.
  intros Hne. unfold holds.
  destruct (deref_alterPart f ref' ref ch) as [-> | [Heq _]];
    [auto | contradiction].
Qed.

Lemma holds_heldAt_offset drop ch ref b :
  holds (heldAt drop) ch ref b ->
  option_map meshY (deref ch ref) = option_map (loweredBy drop) b.
Proof.
  unfold holds, heldAt.
  destruct (deref ch ref), b; cbn [option_map]; try tauto.
  intros [_ ->]. reflexivity.
Qed.

Lemma maintainCrouchState_pose cfg e s h b w :
  holds hasBase (children e) (head (bodyParts s)) h ->
  holds hasBase (children e) (body (bodyParts s)) b ->
  holds hasBase (children e) (weapon (bodyParts s)) w ->
  crouchedPose cfg (originalScale s) (bodyParts s) h b w
    (maintainCrouchState cfg e s).
Proof.
  intros Hh Hb Hw.
  unfold crouchedPose, maintainCrouchState, updatePart, partOffset.
  cbn [scaleY positionY children set_children set_scaleY set_positionY].
  split; [reflexivity|]. split; [reflexivity|].
  split; [|split].
  - apply holds_heldAt_offset.
    apply (holds_alterPart_same hasBase); [exact (lowerMesh_heldAt _)|].
    do 2 (apply holds_alterPart; [exact (lowerMesh_keeps _)|]).
    exact Hw.
  - intros Hbw. apply holds_heldAt_offset.
    apply holds_alterPart_other; [congruence|].
    apply (holds_alterPart_same hasBase); [exact (lowerMesh_heldAt _)|].
    apply holds_alterPart; [exact (lowerMesh_keeps _) | exact Hb].
  - intros Hhb Hhw. apply holds_heldAt_offset.
    apply holds_alterPart_other; [congruence|].
    apply holds_alterPart_other; [congruence|].
    apply (holds_alterPart_same hasBase); [exact (lowerMesh_heldAt _)|].
    exact Hh.
Qed.

(** A tick of a crouch that has more than one tick to go. *)
Lemma crouching_tick_pose cfg r e s k scale parts h b w :
  crouchingFor k scale parts h b w e s -> (1 < k)%Z ->
  let '(e1, s1) := evaluateCrouch cfg r e s in
  crouchingFor (k - 1) scale parts h b w e1 s1 /\
  crouchedPose cfg scale parts h b w e1.
Proof.
  intros Hk Hmore.
  pose proof (crouching_tick cfg r e s k scale parts h b w Hk) as Htick.
  destruct Hk as (Hc & Hct & Hs & Hp & Hh & Hb & Hw).
  assert (Heval : evaluateCrouch cfg r e s
                  = (maintainCrouchState cfg e s, set_crouchTimer (k - 1) s)).
  { unfold evaluateCrouch, holdStandingHeight, handleCrouching.
    do 3 (rewrite ?Hc; cbn [negb andb]).
    cbn [crouchTimer set_crouchTimer]. rewrite Hct.
    destruct (Z.leb_spec (k - 1) 0); [lia | reflexivity]. }
  rewrite Heval in *.
  destruct (Z.leb_spec (k - 1) 0); [lia|].
  split; [exact Htick|].
  subst scale parts. now apply maintainCrouchState_pose.
Qed.

Lemma crouch_holds cfg scale parts h b w : forall rs e s k,
  crouchingFor k scale parts h b w e s ->
  rs <> [] -> (Z.of_nat (length rs) < k)%Z ->
  let '(e', s') := runTicks cfg rs e s in
  crouchingFor (k - Z.of_nat (length rs)) scale parts h b w e' s' /\
  crouchedPose cfg scale parts h b w e'.
Proof.
  induction rs as [|r rs IH]; intros e s k Hk Hne Hlen; [contradiction|].
  rewrite runTicks_cons.
  cbn [length] in Hlen.
  pose proof (crouching_tick_pose cfg r e s k scale parts h b w Hk) as Htick.
  destruct (evaluateCrouch cfg r e s) as [e1 s1].
  destruct Htick as [Hk1 Hpose]; [lia|].
  pose proof (pauseOrMove_frame cfg r e1 s1) as Hframe.
  destruct (pauseOrMove cfg r e1 s1) as [e2 s2].
  destruct Hframe as (Hsc & Hy & Hch & Hc & Hct & Hos & Hbp).
  assert (Hk2 : crouchingFor (k - 1) scale parts h b w e2 s2)
    by (unfold crouchingFor in *; rewrite Hc, Hct, Hos, Hbp, Hch; exact Hk1).
  assert (Hpose2 : crouchedPose cfg scale parts h b w e2)
    by (unfold crouchedPose, partOffset in *; rewrite Hsc, Hy, Hch;
        exact Hpose).
  destruct rs as [|r' rs].
  - cbn [runTicks length]. replace (k - Z.of_nat 1)%Z with (k - 1)%Z by lia.
    split; assumption.
  - specialize (IH e2 s2 (k - 1)%Z Hk2).
    destruct (runTicks cfg (r' :: rs) e2 s2) as [e' s'].
    destruct IH as [Hk' Hpose']; [discriminate | cbn [length] in *; lia |].
    split; [|exact Hpose'].
    replace (k - Z.of_nat (length (r :: r' :: rs)))%Z
      with (k - 1 - Z.of_nat (length (r' :: rs)))%Z
      by (cbn [length]; lia).
    exact Hk'.
Qed.

(** X17: a crouch that has started stays on for every tick short of
    [crouchDuration].  Each of those ticks ends with the timer one
    lower, the scale at [originalScale / crouchScale], [positionY] at
    the crouch height, and each tracked part lowered from its base: the
    head by [crouchAmount], body and weapon by eight tenths of it.  A
    part whose base is zero is not lowered at all. *)
Theorem crouch_holds_its_pose cfg r rs e s :
  isCrouching s = false ->
  Qlt_bool (crouchRoll r) (crouchProbability cfg) = true ->
  (Z.of_nat (length (r :: rs)) < crouchDuration cfg)%Z ->
  let '(e', s') := runTicks cfg (r :: rs) e s in
  let parts := bodyParts s in
  isCrouching s' = true /\
  crouchTimer s' = (crouchDuration cfg - Z.of_nat (length (r :: rs)))%Z /\
  crouchedPose cfg (originalScale s) parts
    (partBase e (head parts)) (partBase e (body parts))
    (partBase e (weapon parts)) e' /\
  (forall drop q, q == 0 -> loweredBy drop q = q).
Proof.
  intros Hc Hroll Hlen.
  pose proof (starting_tick cfg r e s Hc Hroll) as Hstart.
  destruct (startCrouching cfg _ _) as [e0 s0].
  destruct Hstart as (Heq & Hk).
  assert (Hrun : runTicks cfg (r :: rs) e s = runTicks cfg (r :: rs) e0 s0)
    by (rewrite !runTicks_cons, Heq; reflexivity).
  rewrite Hrun.
  pose proof (crouch_holds cfg _ _ _ _ _ (r :: rs) e0 s0 _ Hk) as Hheld.
  destruct (runTicks cfg (r :: rs) e0 s0) as [e' s'].
  destruct Hheld as [(Hc' & Hct' & _) Hpose]; [discriminate | exact Hlen |].
  cbv zeta. split; [exact Hc'|]. split; [exact Hct'|]. split; [exact Hpose|].
  intros drop q Hq. unfold loweredBy, truthy.
  apply Qeq_bool_iff in Hq. rewrite Hq. reflexivity.
Qed.

Lemma crouch_holds_its_pose_witness :
  let e := enemyAt 30 fourParts in
  let s := snd (initEnemyMovement enemyConfig (Some e) enemyState0) in
  let '(e', s') := runTicks enemyConfig (crouchNow :: repeat quiet 58) e s in
  isCrouching s' = true /\ crouchTimer s' = 1%Z /\
  partOffset e' (weapon (bodyParts s)) = Some (3 - 10 * (8 # 10)).
Proof.
  pose proof (crouch_holds_its_pose enemyConfig crouchNow (repeat quiet 58)
                (enemyAt 30 fourParts)
                (snd (initEnemyMovement enemyConfig
                        (Some (enemyAt 30 fourParts)) enemyState0))
                eq_refl eq_refl) as H.
  cbv zeta.
  destruct (runTicks enemyConfig (crouchNow :: repeat quiet 58)
              (enemyAt 30 fourParts)
              (snd (initEnemyMovement enemyConfig
                      (Some (enemyAt 30 fourParts)) enemyState0)))
    as [e' s'].
  destruct H as (Hc & Ht & (_ & _ & Hw & _) & _).
  - vm_compute. reflexivity.
  - split; [exact Hc|]. split; [exact Ht | exact Hw].
Defined.

End PartSelectionFacts.

(** * The muzzle flash particles *)

Module MuzzleFlashFacts.
Import MuzzleFlash.
Local Open Scope Z_scope.

(** The loop seen from the end of the array: the particles still to
    visit, followed by those already kept. *)
Lemma cleanupBelow_scene now : forall todo kept,
  cleanupBelow true now (length todo) (todo ++ kept)
  = (Returned tt, List.filter (alive now) todo ++ kept).
Proof.
  induction todo as [|p todo IH] using rev_ind; intros kept; [reflexivity|].
  rewrite length_app. cbn [length]. rewrite Nat.add_1_r.
  cbn [cleanupBelow].
  rewrite <- app_assoc. cbn [app].
  rewrite list_lookup_middle by reflexivity.
  rewrite filter_app. cbn [List.filter]. unfold alive at 2.
  destruct (expired now p); cbn [negb].
  - rewrite delete_middle, app_nil_r. apply IH.
  - rewrite <- app_assoc. cbn [app]. apply IH.
Qed.

Lemma cleanupBelow_no_scene now : forall todo kept,
  cleanupBelow false now (length todo) (todo ++ kept)
  = (if existsb (expired now) todo then Thrown else Returned tt, todo ++ kept).
Proof.
  induction todo as [|p todo IH] using rev_ind; intros kept; [reflexivity|].
  rewrite length_app. cbn [length]. rewrite Nat.add_1_r.
  cbn [cleanupBelow].
  rewrite <- app_assoc. cbn [app].
  rewrite list_lookup_middle by reflexivity.
  rewrite existsb_app. cbn [existsb]. rewrite orb_false_r.
  destruct (expired now p).
  - rewrite orb_true_r. reflexivity.
  - rewrite orb_false_r. apply IH.
Qed.

(** X18: with a scene, [cleanupParticles] returns, and what is left of
    the array is the particles no older than [particleLifetime], in
    their order: the backward loop with [splice] skips none and drops
    no live one.  Without a scene it returns only if no particle has
    expired; otherwise it throws at the first expired one it meets and
    has removed nothing. *)
Theorem cleanupParticles_keeps_the_live now particles :
  cleanupParticles true now particles
    = (Returned tt, List.filter (alive now) particles) /\
  cleanupParticles false now particles
    = (if existsb (expired now) particles then Thrown else Returned tt,
       particles).
Proof.
  unfold cleanupParticles. split.
  - pose proof (cleanupBelow_scene now particles []) as H.
    now rewrite !app_nil_r in H.
  - pose proof (cleanupBelow_no_scene now particles []) as H.
    now rewrite !app_nil_r in H.
Qed.

End MuzzleFlashFacts.
